(** * Planar quadrotor dynamics: a shallow embedding of [2-Planar-Quadrotor.ipynb]

    The notebook defines the orientation kinematics [dRot3], the parameter
    dataclass [Params] and the class [PlanarQuadrotorDynamics] with its
    rotor thrust model, its [state_derivative] and its [step].

    Python floats are read as real numbers: every arithmetic operation of
    the source is the exact operation on [R].  NumPy arrays whose length the
    source leaves open (the rotor rates, the flat state vector handed to the
    ODE solver) are lists; the three-component fields of a state are typed
    records.  Calls that can raise return [option].

    Two library functions stay parameters of the model:
    [Rot3.to_yaw_pitch_roll] of symforce, and the step sizes that SciPy's
    adaptive [RK45] accepts for a given problem.  What the solver does with
    an accepted step, the Dormand-Prince scheme, is written out. *)

From Stdlib Require Import ZArith Reals Lra Lia List.
Import ListNotations.

Open Scope R_scope.

(** ** Exceptions as [option] *)

Definition bind {A B : Type} (m : option A) (k : A -> option B) : option B :=
  match m with
  | Some a => k a
  | None => None
  end.

Notation "x <- m ;; k" := (bind m (fun x => k))
  (at level 61, m at next level, right associativity).

(** ** NumPy arrays *)

Definition ndarray := list R.

(** [a + b] on two arrays of one shape. *)
Fixpoint vadd (a b : ndarray) : ndarray :=
  match a, b with
  | x :: a', y :: b' => (x + y) :: vadd a' b'
  | _, _ => []
  end.

(** [c * a] and [a * c] for a scalar [c]. *)
Definition vscale (c : R) (a : ndarray) : ndarray := map (fun x => c * x) a.

(** [a / c] for a scalar [c]. *)
Definition vdiv (a : ndarray) (c : R) : ndarray := map (fun x => x / c) a.

(** [np.dot] of two one-dimensional arrays. *)
Fixpoint dot (a b : ndarray) : R :=
  match a, b with
  | x :: a', y :: b' => x * y + dot a' b'
  | _, _ => 0
  end.

Definition matrix := list ndarray.

(** [M.T] for a matrix given by its rows. *)
Definition transpose (M : matrix) : matrix :=
  map (fun j => map (fun row => nth j row 0) M) (seq 0 (length (hd [] M))).

(** [M @ v] for a matrix and a one-dimensional array. *)
Definition matmul (M : matrix) (v : ndarray) : ndarray :=
  map (fun row => dot row v) M.

(** ** Vectors and rotations of a state *)

Record Vec3 : Type := mkVec3 { vx : R; vy : R; vz : R }.

Definition Vec3_array (v : Vec3) : ndarray := [vx v; vy v; vz v].

Definition zeros3 : Vec3 := mkVec3 0 0 0.

(** [sym.Rot3]: four storage components in xyzw order. *)
Record Rot3 : Type := mkRot3 { qx : R; qy : R; qz : R; qw : R }.

Definition to_storage (r : Rot3) : ndarray := [qx r; qy r; qz r; qw r].

(** [Rot3.from_storage] rejects a storage of the wrong length. *)
Definition from_storage (vec : ndarray) : option Rot3 :=
  match vec with
  | [x; y; z; w] => Some (mkRot3 x y z w)
  | _ => None
  end.

(** [Rot3.from_yaw_pitch_roll(0, 0, 0)]: the identity rotation. *)
Definition Rot3_identity : Rot3 := mkRot3 0 0 0 1.

(** ** Orientation kinematics *)

(** The matrix [G] of [dRot3], rows as written in the source. *)
Definition G_matrix (q0 q1 q2 q3 : R) : matrix :=
  [ [   q3;   q2; - q1; - q0 ];
    [ - q2;   q3;   q0; - q1 ];
    [   q1; - q0;   q3; - q2 ] ].

Definition dRot3 (R_ : Rot3) (omega : Vec3) : option Rot3 :=
  match to_storage R_ with
  | [q0; q1; q2; q3] =>
      let G := G_matrix q0 q1 q2 q3 in
      let quat_dot := vdiv (matmul (transpose G) (Vec3_array omega)) 2 in
      from_storage quat_dot
  | _ => None
  end.

(** The 4x4 skew-symmetric embedding of a body-frame angular velocity, for
    quaternions stored in xyzw order. *)
Definition Omega (omega : Vec3) : matrix :=
  let wx := vx omega in
  let wy := vy omega in
  let wz := vz omega in
  [ [    0;   wz; - wy;   wx ];
    [ - wz;    0;   wx;   wy ];
    [   wy; - wx;    0;   wz ];
    [ - wx; - wy; - wz;    0 ] ].

(** ** Model parameters *)

Record Params : Type := mkParams {
  mass : R;
  inertia : R;
  rotor_diameter : R;
  static_thrust_coefficient : R;
  static_torque_coefficient : R;
  arm_length : R;
  g : R;
  rho : R
}.

(** What a call of the dataclass constructor can produce. *)
Inductive construction (A : Type) : Type :=
| Constructed (a : A)
| ConfigurationError.

Arguments Constructed {A} a.
Arguments ConfigurationError {A}.

(** The [__init__] that [@dataclass] generates for [Params]: it stores its
    arguments; the class has no [__post_init__]. *)
Definition Params_init (mass inertia rotor_diameter static_thrust_coefficient
    static_torque_coefficient arm_length g rho : R) : construction Params :=
  Constructed (mkParams mass inertia rotor_diameter static_thrust_coefficient
                 static_torque_coefficient arm_length g rho).

(** [Params()], the field defaults of the source. *)
Definition Params_default : Params :=
  mkParams 1.352 9.8e-2 (10 * 0.0254) 0.14553 0.01047 (0.3814 / 2.0)
           9.80665 1.225.

Definition rotor_model (self : Params) (static_coefficient : R) : R :=
  rho self * static_coefficient * (rotor_diameter self ^ 4) / (4 * PI ^ 2).

Definition k_thrust (self : Params) : R :=
  rotor_model self (static_thrust_coefficient self).

Definition k_torque (self : Params) : R :=
  rotor_model self (static_torque_coefficient self).

(** ** States and commands *)

Record QuadrotorState : Type := mkQuadrotorState {
  position : Vec3;
  velocity : Vec3;
  orientation : Rot3;
  angular_velocity : Vec3
}.

Record QuadrotorCommands : Type := mkQuadrotorCommands {
  rotor_rates : ndarray
}.

(** ** The state vector codec *)

(** Modelled from the spec: [QuadrotorState.to_state_vector] lives in
    [quadrotor/dynamics.py], which is not part of the sources at hand.  The
    flat vector lists the fields in the fixed order position, velocity,
    orientation (xyzw storage), angular velocity. *)
Definition to_state_vector (self : QuadrotorState) : ndarray :=
  Vec3_array (position self) ++ Vec3_array (velocity self)
    ++ to_storage (orientation self) ++ Vec3_array (angular_velocity self).

(** Modelled from the spec: [QuadrotorState.from_state_vector], the inverse
    of [to_state_vector]; a vector of the wrong length is rejected. *)
Definition from_state_vector (state_vector : ndarray) : option QuadrotorState :=
  match state_vector with
  | [px; py; pz; ux; uy; uz; q0; q1; q2; q3; wx; wy; wz] =>
      Some (mkQuadrotorState (mkVec3 px py pz) (mkVec3 ux uy uz)
              (mkRot3 q0 q1 q2 q3) (mkVec3 wx wy wz))
  | _ => None
  end.

(** Field-wise closeness of two states, up to [eps] in every component. *)
Definition close (eps a b : R) : Prop := Rabs (a - b) <= eps.

Definition close_Vec3 (eps : R) (a b : Vec3) : Prop :=
  close eps (vx a) (vx b) /\ close eps (vy a) (vy b) /\ close eps (vz a) (vz b).

Definition close_Rot3 (eps : R) (a b : Rot3) : Prop :=
  close eps (qx a) (qx b) /\ close eps (qy a) (qy b)
  /\ close eps (qz a) (qz b) /\ close eps (qw a) (qw b).

Definition close_state (eps : R) (a b : QuadrotorState) : Prop :=
  close_Vec3 eps (position a) (position b)
  /\ close_Vec3 eps (velocity a) (velocity b)
  /\ close_Rot3 eps (orientation a) (orientation b)
  /\ close_Vec3 eps (angular_velocity a) (angular_velocity b).

(** ** The explicit Runge-Kutta stepper behind [solve_ivp(method='RK45')] *)

(** The Dormand-Prince coefficients of SciPy's [RK45] class. *)
Definition RK45_C : list R := [0; 1/5; 3/10; 4/5; 8/9; 1].

Definition RK45_A : matrix :=
  [ [0; 0; 0; 0; 0];
    [1/5; 0; 0; 0; 0];
    [3/40; 9/40; 0; 0; 0];
    [44/45; -56/15; 32/9; 0; 0];
    [19372/6561; -25360/2187; 64448/6561; -212/729; 0];
    [9017/3168; -355/33; 46732/5247; 49/176; -5103/18656] ].

Definition RK45_B : list R :=
  [35/384; 0; 500/1113; 125/192; -2187/6784; 11/84].

Section RungeKutta.

(** The right-hand side handed to the solver; it may raise. *)
Variable fun_ : R -> ndarray -> option ndarray.

(** The loop of [rk_step] over the rows [(a, c)] of the tableau: [K] holds
    the stages computed so far,
    [dy = np.dot(K[:s].T, a[:s]) * h] and [K[s] = fun(t + c * h, y + dy)]. *)
Fixpoint rk_stages (t : R) (y : ndarray) (h : R)
    (rows : list (ndarray * R)) (K : matrix) : option matrix :=
  match rows with
  | [] => Some K
  | (a, c) :: rows' =>
      let dy := vscale h (matmul (transpose K) (firstn (length K) a)) in
      k <- fun_ (t + c * h) (vadd y dy) ;;
      rk_stages t y h rows' (K ++ [k])
  end.

(** One step of size [h] from [(t, y)], [f] being [fun(t, y)]; returns
    [y_new] and [f_new]. *)
Definition rk_step (t : R) (y f : ndarray) (h : R) : option (ndarray * ndarray) :=
  K <- rk_stages t y h (combine (tl RK45_A) (tl RK45_C)) [f] ;;
  let y_new := vadd y (vscale h (matmul (transpose K) RK45_B)) in
  f_new <- fun_ (t + h) y_new ;;
  Some (y_new, f_new).

(** The accepted steps of one integration, taken in order. *)
Fixpoint rk_integrate (t : R) (y f : ndarray) (hs : list R) : option ndarray :=
  match hs with
  | [] => Some y
  | h :: hs' =>
      match rk_step t y f h with
      | Some (y_new, f_new) => rk_integrate (t + h) y_new f_new hs'
      | None => None
      end
  end.

End RungeKutta.

(** The sum of a list of step sizes. *)
Definition total (hs : list R) : R := fold_right Rplus 0 hs.

(** The held object of the dynamics class.

    Modelled from the spec: the base class [QuadrotorDynamicsBase] is not
    part of the sources at hand; it holds the current state and the fixed
    timestep [dt]. *)
Record Dynamics : Type := mkDynamics {
  state : QuadrotorState;
  dt : R
}.

(** ** The integration read on structured states

    The solver works on flat vectors and [step] converts at every call of
    the right-hand side.  The same Runge-Kutta scheme, written on states,
    is what the flat computation amounts to (see [rk_integrate_flat]
    below); the properties of a step are proved on it. *)

Definition Vec3_add (a b : Vec3) : Vec3 :=
  mkVec3 (vx a + vx b) (vy a + vy b) (vz a + vz b).

Definition Vec3_scale (c : R) (a : Vec3) : Vec3 :=
  mkVec3 (c * vx a) (c * vy a) (c * vz a).

Definition Rot3_add (a b : Rot3) : Rot3 :=
  mkRot3 (qx a + qx b) (qy a + qy b) (qz a + qz b) (qw a + qw b).

Definition Rot3_scale (c : R) (a : Rot3) : Rot3 :=
  mkRot3 (c * qx a) (c * qy a) (c * qz a) (c * qw a).

Definition state_add (a b : QuadrotorState) : QuadrotorState :=
  mkQuadrotorState (Vec3_add (position a) (position b))
                   (Vec3_add (velocity a) (velocity b))
                   (Rot3_add (orientation a) (orientation b))
                   (Vec3_add (angular_velocity a) (angular_velocity b)).

Definition state_scale (c : R) (a : QuadrotorState) : QuadrotorState :=
  mkQuadrotorState (Vec3_scale c (position a))
                   (Vec3_scale c (velocity a))
                   (Rot3_scale c (orientation a))
                   (Vec3_scale c (angular_velocity a)).

(** The component of a list of states along one coordinate, weighted. *)
Definition weighted (K : list QuadrotorState) (a : list R)
    (coord : QuadrotorState -> R) : R :=
  dot (map coord K) a.

(** [np.dot(K.T, a)] on states: the weighted sum of the stages. *)
Definition state_lincomb (K : list QuadrotorState) (a : list R) : QuadrotorState :=
  let w := weighted K a in
  mkQuadrotorState
    (mkVec3 (w (fun s => vx (position s))) (w (fun s => vy (position s)))
            (w (fun s => vz (position s))))
    (mkVec3 (w (fun s => vx (velocity s))) (w (fun s => vy (velocity s)))
            (w (fun s => vz (velocity s))))
    (mkRot3 (w (fun s => qx (orientation s))) (w (fun s => qy (orientation s)))
            (w (fun s => qz (orientation s))) (w (fun s => qw (orientation s))))
    (mkVec3 (w (fun s => vx (angular_velocity s)))
            (w (fun s => vy (angular_velocity s)))
            (w (fun s => vz (angular_velocity s)))).

Section StateRungeKutta.

Variable D : QuadrotorState -> option QuadrotorState.

(** The flat right-hand side that [D] induces through the codec. *)
Definition flat (t : R) (v : ndarray) : option ndarray :=
  s <- from_state_vector v ;;
  d <- D s ;;
  Some (to_state_vector d).

Fixpoint rk_stages_state (y : QuadrotorState) (h : R)
    (rows : list (ndarray * R)) (K : list QuadrotorState)
    : option (list QuadrotorState) :=
  match rows with
  | [] => Some K
  | (a, c) :: rows' =>
      let dy := state_scale h (state_lincomb K (firstn (length K) a)) in
      k <- D (state_add y dy) ;;
      rk_stages_state y h rows' (K ++ [k])
  end.

Definition rk_step_state (y f : QuadrotorState) (h : R)
    : option (QuadrotorState * QuadrotorState) :=
  K <- rk_stages_state y h (combine (tl RK45_A) (tl RK45_C)) [f] ;;
  let y_new := state_add y (state_scale h (state_lincomb K RK45_B)) in
  f_new <- D y_new ;;
  Some (y_new, f_new).

Fixpoint rk_integrate_state (y f : QuadrotorState) (hs : list R)
    : option QuadrotorState :=
  match hs with
  | [] => Some y
  | h :: hs' =>
      match rk_step_state y f h with
      | Some (y_new, f_new) => rk_integrate_state y_new f_new hs'
      | None => None
      end
  end.

End StateRungeKutta.

(** A result pair of [rk_step_state], encoded. *)
Definition encode_pair (yf : QuadrotorState * QuadrotorState) : ndarray * ndarray :=
  (to_state_vector (fst yf), to_state_vector (snd yf)).

(** The step-size control reaches the end of the interval: the accepted
    steps go forward and add up to [dt]. *)
Definition reaches_bound
    (steps : (R -> ndarray -> option ndarray) -> R -> ndarray -> list R) : Prop :=
  forall fun_ dt y0, 0 <= dt ->
    Forall (fun h => 0 <= h) (steps fun_ dt y0) /\ total (steps fun_ dt y0) = dt.

(** A step-size control that always takes the whole interval at once. *)
Definition single_step (fun_ : R -> ndarray -> option ndarray) (dt : R)
    (y0 : ndarray) : list R := [dt].

(** A stand-in for [to_yaw_pitch_roll] that reports a level attitude. *)
Definition level_yaw_pitch_roll (r : Rot3) : R * R * R := (0, 0, 0).

(** ** The runs of the notebook *)

(** The initial state of the notebook: at rest at the origin, level. *)
Definition initial_state : QuadrotorState :=
  mkQuadrotorState zeros3 zeros3 Rot3_identity zeros3.

(** The commands of [EmptyController], [HoverController] and
    [ImbalancedController]. *)
Definition EmptyController_step : QuadrotorCommands :=
  mkQuadrotorCommands [0; 0; 0; 0].

Definition HoverController_step : QuadrotorCommands :=
  mkQuadrotorCommands [598; 598; 0; 0].

Definition ImbalancedController_step : QuadrotorCommands :=
  mkQuadrotorCommands [600; 500; 0; 0].

(** Parameters with a negative mass, otherwise the defaults. *)
Definition Params_invalid : Params :=
  mkParams (-1) 9.8e-2 (10 * 0.0254) 0.14553 0.01047 (0.3814 / 2.0)
           9.80665 1.225.

(** Parameters with a thrust constant of one, a mass of two and unit
    gravity: two rotors at unit rate carry the weight. *)
Definition Params_unit : Params :=
  mkParams 2 1 1 1 1 1 1 (4 * PI ^ 2).

(** ** Integer arrays

    An array built from integer literals, as the commands of the notebook's
    controllers are, has a fixed-width integer dtype ([int32] or [int64]):
    its elementwise arithmetic is two's complement arithmetic of that width
    and wraps around without an error. *)

(** The value of [x] in two's complement on [w] bits. *)
Definition wrap (w : Z) (x : Z) : Z :=
  ((x + 2 ^ (w - 1)) mod 2 ^ w - 2 ^ (w - 1))%Z.

(** [rate ** 2] on an integer array of width [w]. *)
Definition int_square (w : Z) (rate : Z) : Z := wrap w (rate * rate).

Section PlanarQuadrotorDynamics.

(** The module-level global [p = Params()]. *)
Variable p : Params.

(** [Rot3.to_yaw_pitch_roll] of the symforce library. *)
Variable to_yaw_pitch_roll : Rot3 -> R * R * R.

(** The sizes of the steps that SciPy's adaptive step-size control accepts
    when it integrates [fun] over [[0, dt]] from [y0]. *)
Variable rk45_steps : (R -> ndarray -> option ndarray) -> R -> ndarray -> list R.

(** [rotor_thrust_model] on an array of floats. *)
Definition rotor_thrust_model (rotor_rates : ndarray) : ndarray :=
  vscale (k_thrust p) (map (fun rate => rate ^ 2) rotor_rates).

(** [rotor_thrust_model] on an array of integers of width [w]: the square is
    taken in the integer type, the product with the float [k_thrust] is a
    float. *)
Definition rotor_thrust_model_int (w : Z) (rotor_rates : list Z) : ndarray :=
  vscale (k_thrust p) (map (fun rate => IZR (int_square w rate)) rotor_rates).

(** The index [[1]] of the yaw, pitch and roll angles. *)
Definition pitch_of (q : Rot3) : R := snd (fst (to_yaw_pitch_roll q)).

Definition state_derivative (state : QuadrotorState) (u1 u2 : R)
    : option QuadrotorState :=
  let phi := pitch_of (orientation state) in
  let accel := mkVec3 ((- sin phi) / mass p * u1)
                      0
                      (cos phi / mass p * u1 - g p) in
  let angular_accel := mkVec3 0 (u2 / inertia p) 0 in
  quat_dot <- dRot3 (orientation state) (angular_velocity state) ;;
  Some (mkQuadrotorState (velocity state) accel quat_dot angular_accel).

(** The first lines of [step]: the thrusts of the first two rotors and the
    generalized inputs [(u1, u2)].  Unpacking fails when fewer than two
    rates are given. *)
Definition generalized_inputs (input : QuadrotorCommands) : option (R * R) :=
  match rotor_thrust_model (firstn 2 (rotor_rates input)) with
  | [F1; F2] =>
      let u1 := F1 + F2 in
      let u2 := (F1 - F2) * arm_length p in
      Some (u1, u2)
  | _ => None
  end.

(** The first lines of [step] on a command of integer rates of width [w].
    While the squares fit the integer type this is [generalized_inputs] of
    the same rates read as floats (see [generalized_inputs_int_exact]). *)
Definition generalized_inputs_int (w : Z) (rotor_rates : list Z) : option (R * R) :=
  match rotor_thrust_model_int w (firstn 2 rotor_rates) with
  | [F1; F2] =>
      let u1 := F1 + F2 in
      let u2 := (F1 - F2) * arm_length p in
      Some (u1, u2)
  | _ => None
  end.

(** The local wrapper [state_derivative(t, state)] inside [step]. *)
Definition state_derivative_wrapper (u1 u2 : R) (t : R) (state : ndarray)
    : option ndarray :=
  s <- from_state_vector state ;;
  d <- state_derivative s u1 u2 ;;
  Some (to_state_vector d).

(** [sp.integrate.solve_ivp(fun, [0, dt], y0, method='RK45')['y'][:, -1]]:
    the solver evaluates [fun(0, y0)] when it is set up and then takes its
    accepted steps.  The trial evaluations behind the choice of the step
    sizes (initial step selection, rejected steps) do not enter the result;
    they are part of [rk45_steps]. *)
Definition solve_ivp (fun_ : R -> ndarray -> option ndarray) (dt : R)
    (y0 : ndarray) : option ndarray :=
  f0 <- fun_ 0 y0 ;;
  rk_integrate fun_ 0 y0 f0 (rk45_steps fun_ dt y0).

(** [step] returns the new state and leaves it in the object. *)
Definition step (self : Dynamics) (t : R) (input : QuadrotorCommands)
    : option (QuadrotorState * Dynamics) :=
  inputs <- generalized_inputs input ;;
  let '(u1, u2) := inputs in
  let state_vector := to_state_vector (state self) in
  y <- solve_ivp (state_derivative_wrapper u1 u2) (dt self) state_vector ;;
  new_state <- from_state_vector y ;;
  Some (new_state, mkDynamics new_state (dt self)).

(** The simulation loop: one [step] per tick, the returned states
    collected in order. *)
Fixpoint simulate (self : Dynamics) (ticks : list (R * QuadrotorCommands))
    : option (list QuadrotorState) :=
  match ticks with
  | [] => Some []
  | (t, input) :: ticks' =>
      match step self t input with
      | Some (s, self') =>
          rest <- simulate self' ticks' ;;
          Some (s :: rest)
      | None => None
      end
  end.

(** [n] ticks under one held command, the clock advancing by [dt]. *)
Fixpoint step_n (n : nat) (self : Dynamics) (t : R) (input : QuadrotorCommands)
    : option Dynamics :=
  match n with
  | O => Some self
  | S n' =>
      match step self t input with
      | Some (_, self') => step_n n' self' (t + dt self) input
      | None => None
      end
  end.

(** The free-fall motion of a state over a duration [tau]: constant
    velocity in x and y, constant acceleration [-g] in z, attitude and
    angular velocity kept. *)
Definition free_fall (y : QuadrotorState) (tau : R) : QuadrotorState :=
  mkQuadrotorState
    (mkVec3 (vx (position y) + tau * vx (velocity y))
            (vy (position y) + tau * vy (velocity y))
            (vz (position y) + tau * vz (velocity y) - g p * tau ^ 2 / 2))
    (mkVec3 (vx (velocity y)) (vy (velocity y)) (vz (velocity y) - g p * tau))
    (orientation y)
    (angular_velocity y).

(** The acceleration that [state_derivative] computes for an attitude [q]
    under the total thrust [u1]: the array [accel] of the source. *)
Definition thrust_acceleration (q : Rot3) (u1 : R) : Vec3 :=
  mkVec3 ((- sin (pitch_of q)) / mass p * u1)
         0
         (cos (pitch_of q) / mass p * u1 - g p).

(** The motion of a state over a duration [tau] under a constant
    acceleration [a], attitude and angular velocity kept. *)
Definition ballistic (y : QuadrotorState) (a : Vec3) (tau : R) : QuadrotorState :=
  mkQuadrotorState
    (mkVec3 (vx (position y) + tau * vx (velocity y) + vx a * tau ^ 2 / 2)
            (vy (position y) + tau * vy (velocity y) + vy a * tau ^ 2 / 2)
            (vz (position y) + tau * vz (velocity y) + vz a * tau ^ 2 / 2))
    (mkVec3 (vx (velocity y) + vx a * tau)
            (vy (velocity y) + vy a * tau)
            (vz (velocity y) + vz a * tau))
    (orientation y)
    (angular_velocity y).

(** * Properties *)

(** ** Orientation kinematics *)

Lemma dRot3_value (q : Rot3) (omega : Vec3) :
  dRot3 q omega =
  Some (mkRot3 ((qw q * vx omega - qz q * vy omega + qy q * vz omega) / 2)
               ((qz q * vx omega + qw q * vy omega - qx q * vz omega) / 2)
               ((- qy q * vx omega + qx q * vy omega + qw q * vz omega) / 2)
               ((- qx q * vx omega - qy q * vy omega - qz q * vz omega) / 2)).
Proof.
  destruct q, omega. cbn.
  f_equal. f_equal; field.
Qed.

(** The storage order is xyzw: a unit pitch rate at the identity rotation
    moves the y component, a unit yaw rate the z component. *)
Example dRot3_identity_pitch :
  dRot3 Rot3_identity (mkVec3 0 1 0) = Some (mkRot3 0 (1 / 2) 0 0).
Proof.
  rewrite dRot3_value. cbn [Rot3_identity qx qy qz qw vx vy vz].
  f_equal. f_equal; field.
Qed.

Example dRot3_identity_yaw :
  dRot3 Rot3_identity (mkVec3 0 0 1) = Some (mkRot3 0 0 (1 / 2) 0).
Proof.
  rewrite dRot3_value. cbn [Rot3_identity qx qy qz qw vx vy vz].
  f_equal. f_equal; field.
Qed.

(** C3. For a quaternion stored in xyzw order and a body-frame angular
    velocity, [dRot3] returns the quaternion whose storage is
    [(G^T omega) / 2], [G] being the 3x4 matrix of the quaternion components;
    this value is [(1/2) Omega(omega) q], where [Omega(omega)] is a 4x4
    matrix built from [omega] alone and skew-symmetric. *)
Theorem dRot3_quaternion_rate (q : Rot3) (omega : Vec3) :
  exists quat_dot,
    dRot3 q omega = Some quat_dot
    /\ to_storage quat_dot
       = vdiv (matmul (transpose (G_matrix (qx q) (qy q) (qz q) (qw q)))
                      (Vec3_array omega)) 2
    /\ to_storage quat_dot = vscale (1 / 2) (matmul (Omega omega) (to_storage q))
    /\ transpose (Omega omega) = map (map Ropp) (Omega omega).
Proof.
  rewrite dRot3_value. eexists. split; [reflexivity|].
  destruct q, omega.
  cbv [to_storage G_matrix Omega Vec3_array transpose matmul vdiv vscale dot
       map seq length hd nth qx qy qz qw vx vy vz].
  repeat split; repeat (f_equal; try field).
Qed.

(** ** The state vector codec *)

Lemma from_to_state_vector (s : QuadrotorState) :
  from_state_vector (to_state_vector s) = Some s.
Proof.
  destruct s as [[px py pz] [ux uy uz] [q0 q1 q2 q3] [wx wy wz]]. reflexivity.
Qed.

Lemma close_refl (eps a : R) : 0 <= eps -> close eps a a.
Proof.
  intros Heps. unfold close. replace (a - a) with 0 by ring.
  rewrite Rabs_R0. exact Heps.
Qed.

Lemma close_state_refl (eps : R) (s : QuadrotorState) :
  0 <= eps -> close_state eps s s.
Proof.
  intros Heps. unfold close_state, close_Vec3, close_Rot3.
  repeat split; apply close_refl; exact Heps.
Qed.

Lemma from_state_vector_length (v : ndarray) :
  length v = 13%nat -> exists s, v = to_state_vector s.
Proof.
  intros Hlen.
  do 13 (destruct v as [|? v]; [discriminate Hlen|]).
  destruct v; [|discriminate Hlen].
  eexists (mkQuadrotorState (mkVec3 _ _ _) (mkVec3 _ _ _)
             (mkRot3 _ _ _ _) (mkVec3 _ _ _)).
  reflexivity.
Qed.

(** C4. Decoding the encoding of a state gives the state back, exactly and
    so within 1e-9 in every field; encoding a decoded vector gives the
    vector back, and only vectors of thirteen entries decode; the encoding
    lists position, velocity, orientation and angular velocity in that fixed
    order. *)
Theorem state_vector_round_trip (s : QuadrotorState) :
  from_state_vector (to_state_vector s) = Some s
  /\ (exists s', from_state_vector (to_state_vector s) = Some s'
                 /\ close_state 1e-9 s s')
  /\ (forall v, match from_state_vector v with
                | Some s' => to_state_vector s' = v
                | None => length v <> 13%nat
                end)
  /\ to_state_vector s
     = [ vx (position s); vy (position s); vz (position s);
         vx (velocity s); vy (velocity s); vz (velocity s);
         qx (orientation s); qy (orientation s); qz (orientation s);
         qw (orientation s);
         vx (angular_velocity s); vy (angular_velocity s);
         vz (angular_velocity s) ].
Proof.
  split; [apply from_to_state_vector|].
  split.
  { exists s. split; [apply from_to_state_vector|].
    apply close_state_refl. lra. }
  split; [|reflexivity].
  intros v.
  destruct (from_state_vector v) as [s'|] eqn:Hdec.
  - unfold from_state_vector in Hdec.
    do 13 (destruct v as [|? v]; [discriminate Hdec|]).
    destruct v; [|discriminate Hdec].
    injection Hdec as <-. reflexivity.
  - intros Hlen. destruct (from_state_vector_length v Hlen) as [s' ->].
    rewrite from_to_state_vector in Hdec. discriminate Hdec.
Qed.

(** ** The state derivative *)

Lemma state_derivative_value (s : QuadrotorState) (u1 u2 : R) :
  state_derivative s u1 u2 =
  (quat_dot <- dRot3 (orientation s) (angular_velocity s) ;;
   Some (mkQuadrotorState
           (velocity s)
           (mkVec3 ((- sin (pitch_of (orientation s))) / mass p * u1) 0
                   (cos (pitch_of (orientation s)) / mass p * u1 - g p))
           quat_dot
           (mkVec3 0 (u2 / inertia p) 0))).
Proof.
  reflexivity.
Qed.

(** C1. [state_derivative] returns a derivative whose position rate is the
    velocity of the state, whose velocity rate is
    [(-sin(phi) u1 / mass, 0, cos(phi) u1 / mass - g)] for the pitch [phi],
    the entry of index 1 of [to_yaw_pitch_roll] of the orientation, whose
    orientation rate is [dRot3] of the orientation and the angular velocity,
    and whose angular velocity rate is [(0, u2 / inertia, 0)]. *)
Theorem state_derivative_fields (s : QuadrotorState) (u1 u2 : R) :
  exists d,
    state_derivative s u1 u2 = Some d
    /\ position d = velocity s
    /\ velocity d
       = mkVec3 (- sin (snd (fst (to_yaw_pitch_roll (orientation s))))
                 * u1 / mass p)
                0
                (cos (snd (fst (to_yaw_pitch_roll (orientation s))))
                 * u1 / mass p - g p)
    /\ dRot3 (orientation s) (angular_velocity s) = Some (orientation d)
    /\ angular_velocity d = mkVec3 0 (u2 / inertia p) 0.
Proof.
  rewrite state_derivative_value, dRot3_value. cbn [bind].
  eexists. split; [reflexivity|]. cbn.
  unfold pitch_of.
  repeat split. f_equal; unfold Rdiv; ring.
Qed.

(** ** Thrust and torque *)

Example generalized_inputs_short :
  generalized_inputs (mkQuadrotorCommands [598]) = None.
Proof. reflexivity. Qed.

Example generalized_inputs_hover :
  generalized_inputs HoverController_step
  = Some (k_thrust p * 598 ^ 2 + k_thrust p * 598 ^ 2,
          (k_thrust p * 598 ^ 2 - k_thrust p * 598 ^ 2) * arm_length p).
Proof. reflexivity. Qed.


(** ** The flat integration is the integration on states *)

Lemma vadd_state (a b : QuadrotorState) :
  vadd (to_state_vector a) (to_state_vector b) = to_state_vector (state_add a b).
Proof. reflexivity. Qed.

Lemma vscale_state (c : R) (a : QuadrotorState) :
  vscale c (to_state_vector a) = to_state_vector (state_scale c a).
Proof. reflexivity. Qed.

Lemma lincomb_state (K : list QuadrotorState) (a : list R) :
  K <> [] ->
  matmul (transpose (map to_state_vector K)) a = to_state_vector (state_lincomb K a).
Proof.
  intros HK. destruct K as [|k K]; [contradiction|].
  unfold transpose.
  change (length (hd [] (map to_state_vector (k :: K)))) with 13%nat.
  cbv [seq]. cbv [matmul]. cbn [map].
  rewrite !map_map. reflexivity.
Qed.

Lemma flat_state (D : QuadrotorState -> option QuadrotorState) (t : R)
    (s : QuadrotorState) :
  flat D t (to_state_vector s) = option_map to_state_vector (D s).
Proof.
  unfold flat. rewrite from_to_state_vector. cbn [bind].
  destruct (D s); reflexivity.
Qed.

Lemma rk_stages_flat (D : QuadrotorState -> option QuadrotorState)
    (t h : R) (y : QuadrotorState) (rows : list (ndarray * R)) :
  forall K, K <> [] ->
    rk_stages (flat D) t (to_state_vector y) h rows (map to_state_vector K)
    = option_map (map to_state_vector) (rk_stages_state D y h rows K).
Proof.
  induction rows as [|[a c] rows IH]; intros K HK; [reflexivity|].
  cbn [rk_stages rk_stages_state].
  rewrite length_map, lincomb_state, vscale_state, vadd_state, flat_state by exact HK.
  destruct (D _) as [k|]; [|reflexivity].
  cbn [option_map bind].
  rewrite <- IH by (destruct K; discriminate).
  rewrite map_app. reflexivity.
Qed.

Lemma rk_stages_state_nonempty (D : QuadrotorState -> option QuadrotorState)
    (y : QuadrotorState) (h : R) (rows : list (ndarray * R)) :
  forall K K', K <> [] -> rk_stages_state D y h rows K = Some K' -> K' <> [].
Proof.
  induction rows as [|[a c] rows IH]; intros K K' HK Hrun.
  - injection Hrun as <-. exact HK.
  - cbn [rk_stages_state] in Hrun.
    destruct (D _) as [k|]; [|discriminate Hrun].
    apply (IH (K ++ [k])); [destruct K; discriminate | exact Hrun].
Qed.

Lemma rk_step_flat (D : QuadrotorState -> option QuadrotorState)
    (t h : R) (y f : QuadrotorState) :
  rk_step (flat D) t (to_state_vector y) (to_state_vector f) h
  = option_map encode_pair (rk_step_state D y f h).
Proof.
  unfold rk_step, rk_step_state.
  change [to_state_vector f] with (map to_state_vector [f]).
  rewrite rk_stages_flat by discriminate.
  destruct (rk_stages_state D y h _ [f]) as [K|] eqn:HK; [|reflexivity].
  cbn [option_map bind].
  rewrite lincomb_state, vscale_state, vadd_state, flat_state
    by (eapply rk_stages_state_nonempty; [|exact HK]; discriminate).
  destruct (D _) as [f_new|]; reflexivity.
Qed.

Lemma rk_integrate_flat (D : QuadrotorState -> option QuadrotorState)
    (hs : list R) :
  forall t y f,
    rk_integrate (flat D) t (to_state_vector y) (to_state_vector f) hs
    = option_map to_state_vector (rk_integrate_state D y f hs).
Proof.
  induction hs as [|h hs IH]; intros t y f; [reflexivity|].
  cbn [rk_integrate rk_integrate_state].
  rewrite rk_step_flat.
  destruct (rk_step_state D y f h) as [[y_new f_new]|]; [|reflexivity].
  cbn [option_map encode_pair fst snd]. apply IH.
Qed.

(** [step], read on states: the derivative at the held state, then the
    accepted Runge-Kutta steps. *)
Lemma step_on_states (self : Dynamics) (t r1 r2 : R) (rest : list R) :
  let F1 := k_thrust p * r1 ^ 2 in
  let F2 := k_thrust p * r2 ^ 2 in
  let u1 := F1 + F2 in
  let u2 := (F1 - F2) * arm_length p in
  let D := fun s => state_derivative s u1 u2 in
  step self t (mkQuadrotorCommands (r1 :: r2 :: rest))
  = (f0 <- D (state self) ;;
     new_state <- rk_integrate_state D (state self) f0
                    (rk45_steps (state_derivative_wrapper u1 u2) (dt self)
                                (to_state_vector (state self))) ;;
     Some (new_state, mkDynamics new_state (dt self))).
Proof.
  intros F1 F2 u1 u2 D.
  unfold step. cbn [generalized_inputs rotor_rates firstn rotor_thrust_model
                    map vscale bind].
  fold F1 F2 u1 u2. unfold solve_ivp.
  change (state_derivative_wrapper u1 u2) with (flat D).
  rewrite flat_state.
  destruct (D (state self)) as [f0|]; [|reflexivity].
  cbn [option_map bind]. rewrite rk_integrate_flat.
  destruct (rk_integrate_state D (state self) f0 _) as [s'|]; [|reflexivity].
  cbn [option_map bind]. rewrite from_to_state_vector. reflexivity.
Qed.

(** ** The integration always returns *)

Lemma state_derivative_total (s : QuadrotorState) (u1 u2 : R) :
  exists d, state_derivative s u1 u2 = Some d.
Proof.
  rewrite state_derivative_value, dRot3_value. cbn [bind].
  eexists. reflexivity.
Qed.

Section Total.

Variable D : QuadrotorState -> option QuadrotorState.
Hypothesis D_total : forall s, exists d, D s = Some d.

Lemma rk_stages_state_total (y : QuadrotorState) (h : R)
    (rows : list (ndarray * R)) :
  forall K, exists K', rk_stages_state D y h rows K = Some K'.
Proof.
  induction rows as [|[a c] rows IH]; intros K.
  - exists K. reflexivity.
  - cbn [rk_stages_state].
    destruct (D_total (state_add y
                (state_scale h (state_lincomb K (firstn (length K) a)))))
      as [k ->].
    cbn [bind]. apply IH.
Qed.

Lemma rk_step_state_total (y f : QuadrotorState) (h : R) :
  exists K f_new,
    rk_step_state D y f h
    = Some (state_add y (state_scale h (state_lincomb K RK45_B)), f_new)
    /\ rk_stages_state D y h (combine (tl RK45_A) (tl RK45_C)) [f] = Some K.
Proof.
  unfold rk_step_state.
  destruct (rk_stages_state_total y h (combine (tl RK45_A) (tl RK45_C)) [f])
    as [K ->].
  cbn [bind].
  destruct (D_total (state_add y (state_scale h (state_lincomb K RK45_B))))
    as [f_new ->].
  exists K, f_new. split; reflexivity.
Qed.

Lemma rk_integrate_state_total (hs : list R) :
  forall y f, exists y', rk_integrate_state D y f hs = Some y'.
Proof.
  induction hs as [|h hs IH]; intros y f.
  - exists y. reflexivity.
  - cbn [rk_integrate_state].
    destruct (rk_step_state_total y f h) as (K & f_new & -> & _).
    apply IH.
Qed.

(** A step of size zero stays where it is. *)
Lemma state_add_scale_zero (y k : QuadrotorState) :
  state_add y (state_scale 0 k) = y.
Proof.
  destruct y as [[px py pz] [ux uy uz] [q0 q1 q2 q3] [wx wy wz]].
  cbv [state_add state_scale Vec3_add Vec3_scale Rot3_add Rot3_scale
       position velocity orientation angular_velocity vx vy vz qx qy qz qw].
  f_equal; f_equal; ring.
Qed.

Lemma rk_integrate_state_zero (hs : list R) :
  Forall (fun h => h = 0) hs ->
  forall y f, rk_integrate_state D y f hs = Some y.
Proof.
  induction 1 as [|h hs Hh _ IH]; intros y f; [reflexivity|].
  cbn [rk_integrate_state]. subst h.
  destruct (rk_step_state_total y f 0) as (K & f_new & -> & _).
  rewrite state_add_scale_zero. apply IH.
Qed.

End Total.

Lemma forward_steps_of_zero (hs : list R) :
  Forall (fun h => 0 <= h) hs -> total hs = 0 -> Forall (fun h => h = 0) hs.
Proof.
  induction 1 as [|h hs Hh Hhs IH]; intros Hsum; [constructor|].
  cbn [total fold_right] in Hsum. fold (total hs) in Hsum.
  assert (Htot : 0 <= total hs).
  { clear -Hhs. induction Hhs as [|x l Hx _ IHl]; cbn [total fold_right].
    - lra.
    - fold (total l). lra. }
  constructor; [lra|]. apply IH. lra.
Qed.

Lemma step_total (self : Dynamics) (t r1 r2 : R) (rest : list R) :
  exists s', step self t (mkQuadrotorCommands (r1 :: r2 :: rest))
             = Some (s', mkDynamics s' (dt self)).
Proof.
  rewrite step_on_states. cbv zeta.
  destruct (state_derivative_total (state self)
              (k_thrust p * r1 ^ 2 + k_thrust p * r2 ^ 2)
              ((k_thrust p * r1 ^ 2 - k_thrust p * r2 ^ 2) * arm_length p))
    as [f0 ->].
  cbn [bind].
  match goal with
  | |- context [rk_integrate_state ?D ?y ?f ?hs] =>
      destruct (rk_integrate_state_total D
                  (fun s => state_derivative_total s _ _) hs y f) as [y' ->]
  end.
  exists y'. reflexivity.
Qed.

(** ** Coordinates whose rate vanishes *)

Section Conserved.

Variable D : QuadrotorState -> option QuadrotorState.
Variable coord : QuadrotorState -> R.

Hypothesis coord_add : forall a b, coord (state_add a b) = coord a + coord b.
Hypothesis coord_scale : forall c a, coord (state_scale c a) = c * coord a.
Hypothesis coord_lincomb :
  forall K a, coord (state_lincomb K a) = weighted K a coord.
Hypothesis rate_zero : forall s d, D s = Some d -> coord d = 0.

Lemma weighted_zero (K : list QuadrotorState) :
  Forall (fun k => coord k = 0) K -> forall a, weighted K a coord = 0.
Proof.
  unfold weighted.
  induction 1 as [|k K Hk _ IH]; intros a; [reflexivity|].
  destruct a as [|c a]; [reflexivity|].
  cbn [map dot]. rewrite Hk, IH. ring.
Qed.

Lemma rk_stages_state_rate_zero (y : QuadrotorState) (h : R)
    (rows : list (ndarray * R)) :
  forall K K',
    Forall (fun k => coord k = 0) K ->
    rk_stages_state D y h rows K = Some K' ->
    Forall (fun k => coord k = 0) K'.
Proof.
  induction rows as [|[a c] rows IH]; intros K K' HK Hrun.
  - injection Hrun as <-. exact HK.
  - cbn [rk_stages_state] in Hrun.
    destruct (D _) as [k|] eqn:Hk; [|discriminate Hrun].
    apply (IH (K ++ [k])); [|exact Hrun].
    apply Forall_app. split; [exact HK|].
    constructor; [|constructor]. exact (rate_zero _ _ Hk).
Qed.

Lemma rk_step_state_conserved (y f y' f' : QuadrotorState) (h : R) :
  coord f = 0 ->
  rk_step_state D y f h = Some (y', f') ->
  coord y' = coord y /\ coord f' = 0.
Proof.
  intros Hf Hstep. unfold rk_step_state in Hstep.
  destruct (rk_stages_state D y h _ [f]) as [K|] eqn:HK; [|discriminate Hstep].
  cbn [bind] in Hstep.
  destruct (D _) as [f_new|] eqn:Hnew; [|discriminate Hstep].
  injection Hstep as <- <-.
  split; [|exact (rate_zero _ _ Hnew)].
  rewrite coord_add, coord_scale, coord_lincomb, weighted_zero; [ring|].
  apply (rk_stages_state_rate_zero _ _ _ _ _ (Forall_cons f Hf (Forall_nil _)) HK).
Qed.

Lemma rk_integrate_state_conserved (hs : list R) :
  forall y f y',
    coord f = 0 ->
    rk_integrate_state D y f hs = Some y' ->
    coord y' = coord y.
Proof.
  induction hs as [|h hs IH]; intros y f y' Hf Hrun.
  - injection Hrun as <-. reflexivity.
  - cbn [rk_integrate_state] in Hrun.
    destruct (rk_step_state D y f h) as [[y1 f1]|] eqn:Hstep;
      [|discriminate Hrun].
    destruct (rk_step_state_conserved _ _ _ _ _ Hf Hstep) as [Hy1 Hf1].
    rewrite (IH _ _ _ Hf1 Hrun). exact Hy1.
Qed.

End Conserved.

Lemma state_derivative_planar (s d : QuadrotorState) (u1 u2 : R) :
  state_derivative s u1 u2 = Some d ->
  vy (velocity d) = 0
  /\ vx (angular_velocity d) = 0 /\ vz (angular_velocity d) = 0.
Proof.
  rewrite state_derivative_value, dRot3_value. cbn [bind].
  intros Hd. injection Hd as <-. repeat split.
Qed.

Lemma step_conserves (coord : QuadrotorState -> R) :
  (forall a b, coord (state_add a b) = coord a + coord b) ->
  (forall c a, coord (state_scale c a) = c * coord a) ->
  (forall K a, coord (state_lincomb K a) = weighted K a coord) ->
  (forall s d u1 u2, state_derivative s u1 u2 = Some d -> coord d = 0) ->
  forall self t r1 r2 rest s' self',
    step self t (mkQuadrotorCommands (r1 :: r2 :: rest)) = Some (s', self') ->
    coord s' = coord (state self).
Proof.
  intros Hadd Hscale Hlin Hrate self t r1 r2 rest s' self'.
  rewrite step_on_states. cbv zeta.
  destruct (state_derivative (state self) _ _) as [f0|] eqn:Hf0;
    [|discriminate].
  cbn [bind].
  destruct (rk_integrate_state _ (state self) f0 _) as [y'|] eqn:Hrun;
    [|discriminate].
  cbn [bind]. intros Hres. injection Hres as <- _.
  refine (rk_integrate_state_conserved _ coord Hadd Hscale Hlin _ _ _ _ _ _ Hrun).
  - intros s d Hd. exact (Hrate _ _ _ _ Hd).
  - exact (Hrate _ _ _ _ Hf0).
Qed.

(** C9. The derivative that [state_derivative] returns has a velocity rate
    with y-component 0 and an angular velocity rate with x- and
    z-components 0; and a step, whatever the command and whatever steps
    the solver takes, returns a state with the same [velocity.y],
    [angular_velocity.x] and [angular_velocity.z] as the held one. *)
Theorem planar_conservation (s : QuadrotorState) (u1 u2 : R)
    (self : Dynamics) (t r1 r2 : R) (rest : list R) :
  (exists d,
      state_derivative s u1 u2 = Some d
      /\ vy (velocity d) = 0
      /\ vx (angular_velocity d) = 0
      /\ vz (angular_velocity d) = 0)
  /\ (exists s',
        step self t (mkQuadrotorCommands (r1 :: r2 :: rest))
        = Some (s', mkDynamics s' (dt self))
        /\ vy (velocity s') = vy (velocity (state self))
        /\ vx (angular_velocity s') = vx (angular_velocity (state self))
        /\ vz (angular_velocity s') = vz (angular_velocity (state self))).
Proof.
  split.
  - destruct (state_derivative_total s u1 u2) as [d Hd].
    exists d. split; [exact Hd|]. exact (state_derivative_planar _ _ _ _ Hd).
  - destruct (step_total self t r1 r2 rest) as [s' Hs'].
    exists s'. split; [exact Hs'|].
    repeat split.
    + refine (step_conserves (fun x => vy (velocity x))
               _ _ _ _ _ _ _ _ _ _ _ Hs');
        try reflexivity.
      intros x d v1 v2 Hd. apply (state_derivative_planar _ _ _ _ Hd).
    + refine (step_conserves (fun x => vx (angular_velocity x))
               _ _ _ _ _ _ _ _ _ _ _ Hs');
        try reflexivity.
      intros x d v1 v2 Hd. apply (state_derivative_planar _ _ _ _ Hd).
    + refine (step_conserves (fun x => vz (angular_velocity x))
               _ _ _ _ _ _ _ _ _ _ _ Hs');
        try reflexivity.
      intros x d v1 v2 Hd. apply (state_derivative_planar _ _ _ _ Hd).
Qed.

(** ** A step of no duration *)

(** C8. With [dt = 0] a step returns the held state and leaves the object
    as it was, for every command of at least two rotor rates. *)
Theorem zero_duration_step (self : Dynamics) (t r1 r2 : R) (rest : list R) :
  reaches_bound rk45_steps ->
  dt self = 0 ->
  step self t (mkQuadrotorCommands (r1 :: r2 :: rest)) = Some (state self, self).
Proof.
  intros Hbound Hdt.
  rewrite step_on_states. cbv zeta.
  destruct (state_derivative_total (state self)
              (k_thrust p * r1 ^ 2 + k_thrust p * r2 ^ 2)
              ((k_thrust p * r1 ^ 2 - k_thrust p * r2 ^ 2) * arm_length p))
    as [f0 ->].
  cbn [bind].
  rewrite rk_integrate_state_zero.
  - cbn [bind]. destruct self as [s0 dt0]. reflexivity.
  - intros s. apply state_derivative_total.
  - match goal with
    | |- Forall _ (rk45_steps ?f ?d ?y) =>
        destruct (Hbound f d y) as [Hfwd Hsum]; [rewrite Hdt; lra|]
    end.
    apply forward_steps_of_zero; [exact Hfwd|].
    rewrite Hsum. exact Hdt.
Qed.

(** ** Time and determinism *)

(** C10. [step] makes no use of its time argument: from one held state and
    one command, two times give the same result. *)
Theorem step_ignores_time (self : Dynamics) (t1 t2 : R)
    (input : QuadrotorCommands) :
  step self t1 input = step self t2 input.
Proof. reflexivity. Qed.

Lemma step_of_held (self1 self2 : Dynamics) (t1 t2 : R)
    (input : QuadrotorCommands) :
  state self1 = state self2 ->
  dt self1 = dt self2 ->
  step self1 t1 input = step self2 t2 input.
Proof.
  intros Hs Hd. unfold step. rewrite Hs, Hd. reflexivity.
Qed.


(** ** Free fall *)

Lemma state_derivative_free (s : QuadrotorState) :
  angular_velocity s = zeros3 ->
  state_derivative s 0 0
  = Some (mkQuadrotorState (velocity s) (mkVec3 0 0 (- g p))
            (mkRot3 0 0 0 0) zeros3).
Proof.
  intros Hw.
  rewrite state_derivative_value, dRot3_value, Hw. cbn [bind vx vy vz zeros3].
  unfold zeros3. f_equal. f_equal; f_equal; unfold Rdiv; ring.
Qed.

Ltac state_compute :=
  cbv [state_add state_scale state_lincomb weighted Vec3_add Vec3_scale
       Rot3_add Rot3_scale dot map firstn length app free_fall zeros3
       RK45_B position velocity orientation angular_velocity
       vx vy vz qx qy qz qw].

Ltac free_stage :=
  cbn [rk_stages_state];
  rewrite state_derivative_free by (state_compute; f_equal; ring);
  cbn [bind app].

Lemma rk_step_state_free_fall (y f : QuadrotorState) (h : R) :
  angular_velocity y = zeros3 ->
  state_derivative y 0 0 = Some f ->
  exists f_new,
    rk_step_state (fun s => state_derivative s 0 0) y f h
    = Some (free_fall y h, f_new)
    /\ state_derivative (free_fall y h) 0 0 = Some f_new.
Proof.
  intros Hw Hf.
  rewrite (state_derivative_free y Hw) in Hf. injection Hf as <-.
  destruct y as [[px py pz] [ux uy uz] [q0 q1 q2 q3] w].
  cbn [angular_velocity] in Hw. subst w.
  eexists. split; [|apply state_derivative_free; reflexivity].
  unfold rk_step_state. cbn [combine tl RK45_A RK45_C].
  do 5 free_stage.
  cbn [rk_stages_state bind].
  rewrite state_derivative_free by (state_compute; f_equal; ring).
  cbn [bind]. f_equal.
  state_compute.
  f_equal; f_equal; f_equal; field.
Qed.

Lemma free_fall_compose (y : QuadrotorState) (a b : R) :
  free_fall (free_fall y a) b = free_fall y (a + b).
Proof.
  unfold free_fall. cbn [position velocity orientation angular_velocity vx vy vz].
  f_equal; f_equal; field.
Qed.

Lemma free_fall_zero (y : QuadrotorState) : free_fall y 0 = y.
Proof.
  destruct y as [[px py pz] [ux uy uz] q w].
  unfold free_fall. cbn [position velocity orientation angular_velocity vx vy vz].
  f_equal; f_equal; field.
Qed.

Lemma rk_integrate_state_free_fall (hs : list R) :
  forall y f,
    angular_velocity y = zeros3 ->
    state_derivative y 0 0 = Some f ->
    rk_integrate_state (fun s => state_derivative s 0 0) y f hs
    = Some (free_fall y (total hs)).
Proof.
  induction hs as [|h hs IH]; intros y f Hw Hf.
  - cbn [rk_integrate_state total fold_right]. rewrite free_fall_zero. reflexivity.
  - cbn [rk_integrate_state].
    destruct (rk_step_state_free_fall y f h Hw Hf) as (f_new & -> & Hnew).
    rewrite (IH (free_fall y h) f_new Hw Hnew), free_fall_compose. reflexivity.
Qed.

Lemma step_free_fall (self : Dynamics) (t : R) (rest : list R) :
  reaches_bound rk45_steps ->
  0 <= dt self ->
  angular_velocity (state self) = zeros3 ->
  step self t (mkQuadrotorCommands (0 :: 0 :: rest))
  = Some (free_fall (state self) (dt self),
          mkDynamics (free_fall (state self) (dt self)) (dt self)).
Proof.
  intros Hbound Hdt Hw.
  rewrite step_on_states. cbv zeta.
  replace (k_thrust p * 0 ^ 2 + k_thrust p * 0 ^ 2) with 0 by ring.
  replace ((k_thrust p * 0 ^ 2 - k_thrust p * 0 ^ 2) * arm_length p) with 0 by ring.
  rewrite (state_derivative_free _ Hw). cbn [bind].
  rewrite rk_integrate_state_free_fall;
    [|exact Hw|apply state_derivative_free; exact Hw].
  cbn [bind].
  match goal with
  | |- context [rk45_steps ?f ?d ?y] =>
      destruct (Hbound f d y Hdt) as [_ ->]
  end.
  reflexivity.
Qed.

Lemma step_n_free_fall (n : nat) :
  reaches_bound rk45_steps ->
  forall self t rest,
    0 <= dt self ->
    angular_velocity (state self) = zeros3 ->
    step_n n self t (mkQuadrotorCommands (0 :: 0 :: rest))
    = Some (mkDynamics (free_fall (state self) (INR n * dt self)) (dt self)).
Proof.
  intros Hbound.
  induction n as [|n IH]; intros self t rest Hdt Hw.
  - cbn [step_n INR]. rewrite Rmult_0_l, free_fall_zero.
    destruct self; reflexivity.
  - cbn [step_n]. rewrite (step_free_fall self t rest Hbound Hdt Hw).
    rewrite IH by assumption.
    cbn [state dt]. rewrite free_fall_compose, S_INR.
    do 3 f_equal. ring.
Qed.

(** C5. Free fall: under zero rotor rates, from a state with zero velocity
    and zero angular velocity, [n] steps of [dt] give, for the elapsed time
    [t = n dt], [velocity.z = - g t] and a [position.z] lower than at the
    start by [g t^2 / 2] (so [- g t^2 / 2] from the origin); the orientation
    and the angular velocity are those of the start. *)
Theorem free_fall_trajectory (self : Dynamics) (n : nat) (t0 : R)
    (rest : list R) :
  reaches_bound rk45_steps ->
  0 <= dt self ->
  velocity (state self) = zeros3 ->
  angular_velocity (state self) = zeros3 ->
  exists self',
    step_n n self t0 (mkQuadrotorCommands (0 :: 0 :: rest)) = Some self'
    /\ vz (velocity (state self')) = - g p * (INR n * dt self)
    /\ vz (position (state self'))
       = vz (position (state self)) - 1 / 2 * g p * (INR n * dt self) ^ 2
    /\ orientation (state self') = orientation (state self)
    /\ angular_velocity (state self') = zeros3.
Proof.
  intros Hbound Hdt Hv Hw.
  eexists. split; [apply step_n_free_fall; assumption|].
  cbn [state free_fall velocity position orientation angular_velocity vx vy vz].
  rewrite Hv. cbn [vz zeros3].
  repeat split; try field. exact Hw.
Qed.

(** ** Construction of the parameters *)

Lemma from_state_vector_wrong_length (v : ndarray) :
  length v <> 13%nat -> from_state_vector v = None.
Proof.
  intros Hlen. destruct (from_state_vector v) as [s|] eqn:Hdec; [|reflexivity].
  exfalso. apply Hlen. unfold from_state_vector in Hdec.
  do 13 (destruct v as [|? v]; [discriminate Hdec|]).
  destruct v; [reflexivity|discriminate Hdec].
Qed.


(** * Further properties *)

(** ** The quaternion rate *)

Lemma dRot3_total (q : Rot3) (omega : Vec3) :
  exists quat_dot, dRot3 q omega = Some quat_dot.
Proof. rewrite dRot3_value. eexists. reflexivity. Qed.

Lemma dRot3_G (q quat_dot : Rot3) (omega : Vec3) :
  dRot3 q omega = Some quat_dot ->
  matmul (G_matrix (qx q) (qy q) (qz q) (qw q)) (to_storage quat_dot)
  = vscale (dot (to_storage q) (to_storage q) / 2) (Vec3_array omega).
Proof.
  rewrite dRot3_value. intros H. injection H as <-.
  destruct q, omega. cbn. repeat (f_equal; try field).
Qed.

(** The rate that [dRot3] returns is orthogonal to the quaternion: to first
    order the norm of the orientation does not change. *)
Theorem dRot3_orthogonal (q : Rot3) (omega : Vec3) :
  exists quat_dot,
    dRot3 q omega = Some quat_dot
    /\ dot (to_storage q) (to_storage quat_dot) = 0.
Proof.
  rewrite dRot3_value. eexists. split; [reflexivity|].
  destruct q, omega. cbn. field.
Qed.

(** The squared norm of the rate is a quarter of the product of the squared
    norms of the quaternion and of the angular velocity. *)
Theorem dRot3_norm (q : Rot3) (omega : Vec3) :
  exists quat_dot,
    dRot3 q omega = Some quat_dot
    /\ dot (to_storage quat_dot) (to_storage quat_dot)
       = dot (to_storage q) (to_storage q)
         * dot (Vec3_array omega) (Vec3_array omega) / 4.
Proof.
  rewrite dRot3_value. eexists. split; [reflexivity|].
  destruct q, omega. cbn. field.
Qed.

(** The matrix [G] takes the rate back to the angular velocity, scaled by
    half the squared norm of the quaternion: for a unit quaternion,
    [omega = 2 G quat_dot]. *)
Theorem dRot3_recover_omega (q : Rot3) (omega : Vec3) :
  exists quat_dot,
    dRot3 q omega = Some quat_dot
    /\ matmul (G_matrix (qx q) (qy q) (qz q) (qw q)) (to_storage quat_dot)
       = vscale (dot (to_storage q) (to_storage q) / 2) (Vec3_array omega).
Proof.
  destruct (dRot3_total q omega) as [quat_dot H].
  exists quat_dot. split; [exact H|]. exact (dRot3_G _ _ _ H).
Qed.

(** For a quaternion that is not zero, the rate vanishes for the zero
    angular velocity only. *)
Theorem dRot3_zero_rate (q : Rot3) (omega : Vec3) :
  dot (to_storage q) (to_storage q) <> 0 ->
  dRot3 q omega = Some (mkRot3 0 0 0 0) ->
  omega = zeros3.
Proof.
  intros Hq H. pose proof (dRot3_G _ _ _ H) as Hrec.
  destruct q as [q0 q1 q2 q3], omega as [wx wy wz].
  cbn in Hrec, Hq. injection Hrec as Hx Hy Hz.
  assert (Hn : (q0 * q0 + (q1 * q1 + (q2 * q2 + (q3 * q3 + 0)))) / 2 <> 0).
  { intros Hc. apply Hq. lra. }
  unfold zeros3.
  f_equal; (eapply Rmult_eq_reg_l; [|exact Hn]).
  - rewrite <- Hx. ring.
  - rewrite <- Hy. ring.
  - rewrite <- Hz. ring.
Qed.

(** [dRot3] is linear in the angular velocity. *)
Theorem dRot3_linear (q : Rot3) (a b : R) (w1 w2 : Vec3) :
  exists d1 d2,
    dRot3 q w1 = Some d1
    /\ dRot3 q w2 = Some d2
    /\ dRot3 q (Vec3_add (Vec3_scale a w1) (Vec3_scale b w2))
       = Some (Rot3_add (Rot3_scale a d1) (Rot3_scale b d2)).
Proof.
  rewrite !dRot3_value. do 2 eexists.
  split; [reflexivity|]. split; [reflexivity|].
  destruct q, w1, w2.
  cbv [Rot3_add Rot3_scale Vec3_add Vec3_scale qx qy qz qw vx vy vz].
  f_equal. f_equal; field.
Qed.

(** ** The rotor model and the generalized inputs *)

(** For positive air density, static coefficient and rotor diameter the
    rotor constant is positive. *)
Theorem rotor_model_positive (static_coefficient : R) :
  0 < rho p -> 0 < static_coefficient -> 0 < rotor_diameter p ->
  0 < rotor_model p static_coefficient.
Proof.
  intros Hrho Hc Hd. unfold rotor_model.
  apply Rdiv_lt_0_compat.
  - apply Rmult_lt_0_compat; [apply Rmult_lt_0_compat; assumption|].
    apply pow_lt. exact Hd.
  - apply Rmult_lt_0_compat; [lra|]. apply pow_lt. exact PI_RGT_0.
Qed.

(** The thrust and torque constants are in the ratio of the two static
    coefficients, whatever the air density and the rotor diameter. *)
Theorem k_torque_k_thrust_ratio :
  k_torque p * static_thrust_coefficient p
  = k_thrust p * static_torque_coefficient p.
Proof.
  unfold k_torque, k_thrust, rotor_model, Rdiv. ring.
Qed.

(** On floats: with a non-negative thrust constant no thrust is negative. *)
Lemma float_thrust_nonneg (rates : ndarray) :
  0 <= k_thrust p ->
  Forall (fun F => 0 <= F) (rotor_thrust_model rates).
Proof.
  intros Hk. unfold rotor_thrust_model, vscale. rewrite map_map.
  apply Forall_forall. intros F HF.
  apply in_map_iff in HF. destruct HF as (r & <- & _).
  apply Rmult_le_pos; [exact Hk|]. apply pow2_ge_0.
Qed.

(** On floats: the total thrust is non-negative and the net torque is at
    most the total thrust times the arm length. *)
Lemma float_inputs_bounds (r1 r2 : R) (rest : list R) :
  0 <= k_thrust p -> 0 <= arm_length p ->
  exists u1 u2,
    generalized_inputs (mkQuadrotorCommands (r1 :: r2 :: rest)) = Some (u1, u2)
    /\ 0 <= u1
    /\ Rabs u2 <= u1 * arm_length p.
Proof.
  intros Hk Ha.
  exists (k_thrust p * r1 ^ 2 + k_thrust p * r2 ^ 2),
         ((k_thrust p * r1 ^ 2 - k_thrust p * r2 ^ 2) * arm_length p).
  split; [reflexivity|].
  pose proof (pow2_ge_0 r1) as H1. pose proof (pow2_ge_0 r2) as H2.
  assert (HF1 : 0 <= k_thrust p * r1 ^ 2) by (apply Rmult_le_pos; assumption).
  assert (HF2 : 0 <= k_thrust p * r2 ^ 2) by (apply Rmult_le_pos; assumption).
  split; [lra|].
  rewrite Rabs_mult, (Rabs_pos_eq (arm_length p)) by exact Ha.
  apply Rmult_le_compat_r; [exact Ha|].
  apply Rabs_le. lra.
Qed.

(** On floats: the net torque is positive exactly when the first rotor
    turns faster than the second, in absolute value, and zero exactly when
    the two rates agree in absolute value. *)
Lemma float_torque_sign (r1 r2 : R) (rest : list R) :
  0 < k_thrust p -> 0 < arm_length p ->
  exists u1 u2,
    generalized_inputs (mkQuadrotorCommands (r1 :: r2 :: rest)) = Some (u1, u2)
    /\ (0 < u2 <-> Rabs r2 < Rabs r1)
    /\ (u2 = 0 <-> Rabs r1 = Rabs r2).
Proof.
  intros Hk Ha.
  exists (k_thrust p * r1 ^ 2 + k_thrust p * r2 ^ 2),
         ((k_thrust p * r1 ^ 2 - k_thrust p * r2 ^ 2) * arm_length p).
  split; [reflexivity|].
  pose proof (Rabs_pos r1) as H1. pose proof (Rabs_pos r2) as H2.
  rewrite <- (pow2_abs r1), <- (pow2_abs r2).
  set (a := Rabs r1) in *. set (b := Rabs r2) in *.
  assert (Hfact : (k_thrust p * a ^ 2 - k_thrust p * b ^ 2) * arm_length p
                  = k_thrust p * arm_length p * ((a - b) * (a + b))) by ring.
  rewrite Hfact.
  assert (Hka : 0 < k_thrust p * arm_length p) by (apply Rmult_lt_0_compat; assumption).
  split; split; intros H.
  - destruct (Rlt_or_le b a) as [Hlt|Hle]; [exact Hlt|exfalso].
    assert ((a - b) * (a + b) <= 0) by nra. nra.
  - apply Rmult_lt_0_compat; [exact Hka|]. nra.
  - apply Rmult_integral in H. destruct H as [H|H]; [lra|].
    apply Rmult_integral in H. destruct H as [H|H]; [lra|].
    assert (a = 0) by lra. assert (b = 0) by lra. lra.
  - rewrite H. ring.
Qed.

(** ** Commands of integer rates *)

Lemma wrap_small (w x : Z) :
  (0 < w)%Z -> (0 <= x < 2 ^ (w - 1))%Z -> wrap w x = x.
Proof.
  intros Hw Hx. unfold wrap.
  assert (H2 : (2 ^ w = 2 * 2 ^ (w - 1))%Z).
  { replace w with (Z.succ (w - 1)) at 1 by lia. apply Z.pow_succ_r. lia. }
  rewrite Z.mod_small by lia. lia.
Qed.

Lemma wrap_over (w x : Z) :
  (0 < w)%Z -> (2 ^ (w - 1) <= x < 2 ^ w)%Z -> wrap w x = (x - 2 ^ w)%Z.
Proof.
  intros Hw Hx. unfold wrap.
  assert (H2 : (2 ^ w = 2 * 2 ^ (w - 1))%Z).
  { replace w with (Z.succ (w - 1)) at 1 by lia. apply Z.pow_succ_r. lia. }
  assert (Hmod : ((x + 2 ^ (w - 1)) mod 2 ^ w = x + 2 ^ (w - 1) - 2 ^ w)%Z).
  { symmetry. apply (Z.mod_unique _ _ 1); lia. }
  rewrite Hmod. lia.
Qed.

Lemma int_square_exact (w rate : Z) :
  (0 < w)%Z -> (rate * rate < 2 ^ (w - 1))%Z ->
  IZR (int_square w rate) = IZR rate ^ 2.
Proof.
  intros Hw Hr. unfold int_square.
  rewrite wrap_small; [rewrite mult_IZR; ring | exact Hw |].
  split; [apply Z.square_nonneg | exact Hr].
Qed.

Lemma rotor_thrust_model_int_exact (w : Z) (rates : list Z) :
  (0 < w)%Z ->
  Forall (fun rate => (rate * rate < 2 ^ (w - 1))%Z) rates ->
  rotor_thrust_model_int w rates = rotor_thrust_model (map IZR rates).
Proof.
  intros Hw Hr. unfold rotor_thrust_model_int, rotor_thrust_model.
  f_equal. rewrite map_map.
  induction Hr as [|r rates Hr _ IH]; [reflexivity|].
  cbn [map]. rewrite IH, (int_square_exact w r Hw Hr). reflexivity.
Qed.

Lemma generalized_inputs_int_exact (w r1 r2 : Z) (rest : list Z) :
  (0 < w)%Z ->
  (r1 * r1 < 2 ^ (w - 1))%Z -> (r2 * r2 < 2 ^ (w - 1))%Z ->
  generalized_inputs_int w (r1 :: r2 :: rest)
  = generalized_inputs
      (mkQuadrotorCommands (IZR r1 :: IZR r2 :: map IZR rest)).
Proof.
  intros Hw H1 H2. unfold generalized_inputs_int, generalized_inputs.
  cbn [firstn rotor_rates].
  rewrite (rotor_thrust_model_int_exact w [r1; r2] Hw)
    by (constructor; [exact H1|constructor; [exact H2|constructor]]).
  reflexivity.
Qed.

(** On an integer array whose squares fit the integer type, the thrusts are
    [k_thrust * rate^2], and with a non-negative thrust constant none is
    negative, whatever the sign of the rate. *)
Theorem rotor_thrust_int_nonneg (w : Z) (rates : list Z) :
  (0 < w)%Z ->
  0 <= k_thrust p ->
  Forall (fun rate => (rate * rate < 2 ^ (w - 1))%Z) rates ->
  rotor_thrust_model_int w rates
  = map (fun rate => k_thrust p * IZR rate ^ 2) rates
  /\ Forall (fun F => 0 <= F) (rotor_thrust_model_int w rates).
Proof.
  intros Hw Hk Hr.
  rewrite (rotor_thrust_model_int_exact w rates Hw Hr).
  split; [|apply float_thrust_nonneg; exact Hk].
  unfold rotor_thrust_model, vscale. rewrite !map_map. reflexivity.
Qed.

(** On an integer array the square wraps around: a rate whose square
    reaches [2^(w-1)] and stays below [2^w] is squared to
    [rate^2 - 2^w], a negative number, and with a positive thrust constant
    the thrust of that rotor is negative. *)
Theorem rotor_thrust_int_wraps (w rate : Z) :
  (0 < w)%Z ->
  0 < k_thrust p ->
  (2 ^ (w - 1) <= rate * rate < 2 ^ w)%Z ->
  rotor_thrust_model_int w [rate]
  = [k_thrust p * IZR (rate * rate - 2 ^ w)]
  /\ k_thrust p * IZR (rate * rate - 2 ^ w) < 0.
Proof.
  intros Hw Hk Hr. split.
  - unfold rotor_thrust_model_int, vscale, int_square. cbn [map].
    rewrite (wrap_over w _ Hw Hr). reflexivity.
  - assert (Hneg : IZR (rate * rate - 2 ^ w) < 0) by (apply IZR_lt; lia).
    nra.
Qed.

(** For integer rates whose squares fit the integer type, with non-negative
    thrust constant and arm length, the generalized inputs are those of the
    same rates read as floats, the total thrust is non-negative and the net
    torque is at most the total thrust times the arm length. *)
Theorem generalized_inputs_int_bounds (w r1 r2 : Z) (rest : list Z) :
  (0 < w)%Z ->
  (r1 * r1 < 2 ^ (w - 1))%Z -> (r2 * r2 < 2 ^ (w - 1))%Z ->
  0 <= k_thrust p -> 0 <= arm_length p ->
  exists u1 u2,
    generalized_inputs_int w (r1 :: r2 :: rest) = Some (u1, u2)
    /\ generalized_inputs
         (mkQuadrotorCommands (IZR r1 :: IZR r2 :: map IZR rest))
       = Some (u1, u2)
    /\ 0 <= u1
    /\ Rabs u2 <= u1 * arm_length p.
Proof.
  intros Hw H1 H2 Hk Ha.
  rewrite (generalized_inputs_int_exact w r1 r2 rest Hw H1 H2).
  destruct (float_inputs_bounds (IZR r1) (IZR r2) (map IZR rest) Hk Ha)
    as (u1 & u2 & Hin & Hu1 & Hu2).
  exists u1, u2. repeat split; assumption.
Qed.

(** For integer rates whose squares fit the integer type, with positive
    thrust constant and arm length, the net torque is positive exactly when
    the first rate exceeds the second in absolute value, and zero exactly
    when the two agree in absolute value. *)
Theorem net_torque_int_sign (w r1 r2 : Z) (rest : list Z) :
  (0 < w)%Z ->
  (r1 * r1 < 2 ^ (w - 1))%Z -> (r2 * r2 < 2 ^ (w - 1))%Z ->
  0 < k_thrust p -> 0 < arm_length p ->
  exists u1 u2,
    generalized_inputs_int w (r1 :: r2 :: rest) = Some (u1, u2)
    /\ (0 < u2 <-> (Z.abs r2 < Z.abs r1)%Z)
    /\ (u2 = 0 <-> Z.abs r1 = Z.abs r2).
Proof.
  intros Hw H1 H2 Hk Ha.
  rewrite (generalized_inputs_int_exact w r1 r2 rest Hw H1 H2).
  destruct (float_torque_sign (IZR r1) (IZR r2) (map IZR rest) Hk Ha)
    as (u1 & u2 & Hin & Hpos & Hzero).
  exists u1, u2. split; [exact Hin|].
  rewrite <- !abs_IZR in Hpos, Hzero.
  split.
  - rewrite Hpos. split; [apply lt_IZR | apply IZR_lt].
  - rewrite Hzero. split; [apply eq_IZR | intros ->; reflexivity].
Qed.

(** The commands of the notebook's controllers are integer arrays; their
    rates are far within range, on 32 bits already. *)
Example HoverController_int32 :
  generalized_inputs_int 32 [598; 598; 0; 0]%Z
  = generalized_inputs HoverController_step.
Proof.
  apply (generalized_inputs_int_exact 32 598 598 [0; 0]%Z); reflexivity.
Qed.

Example ImbalancedController_int32 :
  generalized_inputs_int 32 [600; 500; 0; 0]%Z
  = generalized_inputs ImbalancedController_step.
Proof.
  apply (generalized_inputs_int_exact 32 600 500 [0; 0]%Z); reflexivity.
Qed.

(** A command fails to unpack exactly when it has fewer than two rotor
    rates, and [step] fails exactly then. *)
Theorem step_fails_on_short_command (self : Dynamics) (t : R)
    (input : QuadrotorCommands) :
  (generalized_inputs input = None <-> (length (rotor_rates input) < 2)%nat)
  /\ (step self t input = None <-> (length (rotor_rates input) < 2)%nat).
Proof.
  destruct input as [[|r1 [|r2 rest]]]; cbn [rotor_rates length].
  - split; split; intros _; [apply Nat.lt_0_succ | reflexivity
                            | apply Nat.lt_0_succ | reflexivity].
  - split; split; intros _; [apply Nat.lt_succ_diag_r | reflexivity
                            | apply Nat.lt_succ_diag_r | reflexivity].
  - destruct (step_total self t r1 r2 rest) as [s' Hs'].
    split; split; intros H.
    + discriminate H.
    + exfalso. apply Nat.succ_lt_mono, Nat.succ_lt_mono in H.
      exact (Nat.nlt_0_r _ H).
    + rewrite Hs' in H. discriminate H.
    + exfalso. apply Nat.succ_lt_mono, Nat.succ_lt_mono in H.
      exact (Nat.nlt_0_r _ H).
Qed.

(** The thrust accelerates the vehicle by [u1 / mass] in magnitude, whatever
    the pitch: the velocity rate less gravity has that norm. *)
Theorem thrust_acceleration_magnitude (s : QuadrotorState) (u1 u2 : R) :
  exists d,
    state_derivative s u1 u2 = Some d
    /\ vx (velocity d) ^ 2 + vy (velocity d) ^ 2 + (vz (velocity d) + g p) ^ 2
       = (u1 / mass p) ^ 2.
Proof.
  rewrite state_derivative_value, dRot3_value. cbn [bind].
  eexists. split; [reflexivity|]. cbn [velocity vx vy vz].
  pose proof (sin2_cos2 (pitch_of (orientation s))) as Hsc.
  unfold Rsqr in Hsc.
  set (sn := sin (pitch_of (orientation s))) in *.
  set (cs := cos (pitch_of (orientation s))) in *.
  transitivity ((sn * sn + cs * cs) * (u1 * / mass p) ^ 2);
    [unfold Rdiv; ring|].
  rewrite Hsc. unfold Rdiv. ring.
Qed.

(** The model cannot tell the spin direction of a rotor: a step under the
    negated rates is the step under the rates. *)
Theorem step_spin_direction (self : Dynamics) (t r1 r2 : R) (rest : list R) :
  step self t (mkQuadrotorCommands (- r1 :: - r2 :: map Ropp rest))
  = step self t (mkQuadrotorCommands (r1 :: r2 :: rest)).
Proof.
  unfold step.
  cbn [generalized_inputs rotor_rates firstn rotor_thrust_model map vscale bind].
  replace ((- r1) ^ 2) with (r1 ^ 2) by ring.
  replace ((- r2) ^ 2) with (r2 ^ 2) by ring.
  reflexivity.
Qed.

(** ** Invariants of a Runge-Kutta step *)

Section StageInvariant.

Variable D : QuadrotorState -> option QuadrotorState.
Variable Inv : QuadrotorState -> Prop.
Variable Rate : QuadrotorState -> Prop.

Hypothesis stage_ok :
  forall y h K a,
    Inv y -> Forall Rate K ->
    Inv (state_add y (state_scale h (state_lincomb K a))).
Hypothesis rate_ok : forall s d, Inv s -> D s = Some d -> Rate d.

Lemma rk_stages_state_invariant (y : QuadrotorState) (h : R)
    (rows : list (ndarray * R)) :
  Inv y ->
  forall K K',
    Forall Rate K ->
    rk_stages_state D y h rows K = Some K' ->
    Forall Rate K' /\ length K' = (length K + length rows)%nat.
Proof.
  intros Hy.
  induction rows as [|[a c] rows IH]; intros K K' HK Hrun.
  - injection Hrun as <-. split; [exact HK|]. cbn [length]. apply plus_n_O.
  - cbn [rk_stages_state] in Hrun.
    destruct (D _) as [k|] eqn:Hk; [|discriminate Hrun].
    cbn [bind] in Hrun.
    destruct (IH (K ++ [k]) K') as [HK' Hlen]; [|exact Hrun|].
    + apply Forall_app. split; [exact HK|].
      constructor; [|constructor].
      exact (rate_ok _ _ (stage_ok _ _ _ _ Hy HK) Hk).
    + split; [exact HK'|].
      rewrite Hlen, length_app. cbn [length].
      rewrite <- Nat.add_assoc. reflexivity.
Qed.

Lemma rk_step_state_invariant (y f y' f' : QuadrotorState) (h : R) :
  Inv y -> Rate f ->
  rk_step_state D y f h = Some (y', f') ->
  Inv y' /\ Rate f'
  /\ exists K,
       Forall Rate K /\ length K = 6%nat
       /\ y' = state_add y (state_scale h (state_lincomb K RK45_B)).
Proof.
  intros Hy Hf Hstep. unfold rk_step_state in Hstep.
  destruct (rk_stages_state D y h _ [f]) as [K|] eqn:HK; [|discriminate Hstep].
  cbn [bind] in Hstep.
  destruct (D _) as [f_new|] eqn:Hnew; [|discriminate Hstep].
  injection Hstep as <- <-.
  destruct (rk_stages_state_invariant _ _ _ Hy _ _
              (Forall_cons f Hf (Forall_nil _)) HK) as [HRate Hlen].
  pose proof (stage_ok y h K RK45_B Hy HRate) as Hy'.
  split; [exact Hy'|]. split; [exact (rate_ok _ _ Hy' Hnew)|].
  exists K. split; [exact HRate|]. split; [exact Hlen|]. reflexivity.
Qed.

End StageInvariant.

(** The weights of the step add up to one. *)
Lemma weighted_RK45_B (coord : QuadrotorState -> R) (c : R)
    (K : list QuadrotorState) :
  length K = 6%nat ->
  Forall (fun k => coord k = c) K ->
  weighted K RK45_B coord = c.
Proof.
  intros Hlen HK.
  do 6 (destruct K as [|? K]; [discriminate Hlen|]).
  destruct K; [|discriminate Hlen].
  repeat match goal with
         | H : Forall _ (_ :: _) |- _ => inversion H; subst; clear H
         end.
  cbv [weighted map dot RK45_B].
  repeat match goal with H : coord _ = _ |- _ => rewrite H; clear H end.
  field.
Qed.

Section ConstantRate.

Variable D : QuadrotorState -> option QuadrotorState.
Variable coord : QuadrotorState -> R.
Variable c : R.

Hypothesis coord_add : forall a b, coord (state_add a b) = coord a + coord b.
Hypothesis coord_scale : forall k a, coord (state_scale k a) = k * coord a.
Hypothesis coord_lincomb :
  forall K a, coord (state_lincomb K a) = weighted K a coord.
Hypothesis rate_const : forall s d, D s = Some d -> coord d = c.

Lemma rk_integrate_state_constant_rate (hs : list R) :
  forall y f y',
    coord f = c ->
    rk_integrate_state D y f hs = Some y' ->
    coord y' = coord y + total hs * c.
Proof.
  induction hs as [|h hs IH]; intros y f y' Hf Hrun.
  - injection Hrun as <-. cbn [total fold_right]. ring.
  - cbn [rk_integrate_state] in Hrun.
    destruct (rk_step_state D y f h) as [[y1 f1]|] eqn:Hstep;
      [|discriminate Hrun].
    destruct (rk_step_state_invariant D (fun _ => True)
                (fun d => coord d = c) (fun _ _ _ _ _ _ => I)
                (fun s d _ Hd => rate_const s d Hd) _ _ _ _ _ I Hf Hstep)
      as (_ & Hf1 & K & HK & Hlen & ->).
    rewrite (IH _ _ _ Hf1 Hrun).
    rewrite coord_add, coord_scale, coord_lincomb,
      (weighted_RK45_B coord c K Hlen HK).
    cbn [total fold_right]. fold (total hs). ring.
Qed.

End ConstantRate.

(** ** The pitch rate under a held command *)

Lemma state_derivative_pitch_rate (s d : QuadrotorState) (u1 u2 : R) :
  state_derivative s u1 u2 = Some d ->
  vy (angular_velocity d) = u2 / inertia p.
Proof.
  rewrite state_derivative_value, dRot3_value. cbn [bind].
  intros Hd. injection Hd as <-. reflexivity.
Qed.

Lemma step_pitch_rate (self : Dynamics) (t r1 r2 : R) (rest : list R) :
  reaches_bound rk45_steps ->
  0 <= dt self ->
  exists s',
    step self t (mkQuadrotorCommands (r1 :: r2 :: rest))
    = Some (s', mkDynamics s' (dt self))
    /\ vy (angular_velocity s')
       = vy (angular_velocity (state self))
         + dt self * ((k_thrust p * r1 ^ 2 - k_thrust p * r2 ^ 2)
                      * arm_length p / inertia p).
Proof.
  intros Hbound Hdt.
  destruct (step_total self t r1 r2 rest) as [s' Hs'].
  exists s'. split; [exact Hs'|].
  rewrite step_on_states in Hs'. cbv zeta in Hs'.
  destruct (state_derivative (state self) _ _) as [f0|] eqn:Hf0;
    [|discriminate Hs'].
  cbn [bind] in Hs'.
  destruct (rk_integrate_state _ (state self) f0 _) as [y'|] eqn:Hrun;
    [|discriminate Hs'].
  cbn [bind] in Hs'. injection Hs' as <-.
  rewrite (rk_integrate_state_constant_rate _
             (fun x => vy (angular_velocity x)) _
             (fun _ _ => eq_refl) (fun _ _ => eq_refl) (fun _ _ => eq_refl)
             (fun s d Hd => state_derivative_pitch_rate s d _ _ Hd)
             _ _ _ _ (state_derivative_pitch_rate _ _ _ _ Hf0) Hrun).
  match goal with
  | |- context [rk45_steps ?f ?d ?y] =>
      destruct (Hbound f d y Hdt) as [_ ->]
  end.
  unfold Rdiv. ring.
Qed.

(** Under a held command the angular velocity about the y axis grows by
    [dt * u2 / inertia] at every step, exactly: after [n] steps it has
    grown by [n * dt * u2 / inertia], whatever the state. *)
Theorem pitch_rate_growth (n : nat) (r1 r2 : R) (rest : list R) :
  reaches_bound rk45_steps ->
  forall (self : Dynamics) (t : R),
    0 <= dt self ->
    exists self',
      step_n n self t (mkQuadrotorCommands (r1 :: r2 :: rest)) = Some self'
      /\ dt self' = dt self
      /\ vy (angular_velocity (state self'))
         = vy (angular_velocity (state self))
           + INR n * dt self
             * ((k_thrust p * r1 ^ 2 - k_thrust p * r2 ^ 2)
                * arm_length p / inertia p).
Proof.
  intros Hbound.
  induction n as [|n IH]; intros self t Hdt.
  - exists self. split; [reflexivity|]. split; [reflexivity|].
    cbn [INR]. ring.
  - cbn [step_n].
    destruct (step_pitch_rate self t r1 r2 rest Hbound Hdt) as (s' & -> & Hs').
    destruct (IH (mkDynamics s' (dt self)) (t + dt self) Hdt)
      as (self' & Hrun & Hdt' & Hw).
    exists self'. split; [exact Hrun|]. split; [exact Hdt'|].
    rewrite Hw. cbn [state dt]. rewrite Hs', S_INR. ring.
Qed.

(** ** Motion across the plane *)

Lemma state_derivative_across (s d : QuadrotorState) (u1 u2 : R) :
  state_derivative s u1 u2 = Some d ->
  vy (velocity d) = 0 /\ vy (position d) = vy (velocity s).
Proof.
  rewrite state_derivative_value, dRot3_value. cbn [bind].
  intros Hd. injection Hd as <-. split; reflexivity.
Qed.

Section AcrossPlane.

Variable D : QuadrotorState -> option QuadrotorState.
Variable v0 : R.

Hypothesis D_across :
  forall s d, D s = Some d ->
    vy (velocity d) = 0 /\ vy (position d) = vy (velocity s).

Lemma across_stage_ok (y : QuadrotorState) (h : R)
    (K : list QuadrotorState) (a : list R) :
  vy (velocity y) = v0 ->
  Forall (fun d => vy (velocity d) = 0 /\ vy (position d) = v0) K ->
  vy (velocity (state_add y (state_scale h (state_lincomb K a)))) = v0.
Proof.
  intros Hy HK.
  assert (Hw : weighted K a (fun x => vy (velocity x)) = 0).
  { apply weighted_zero. eapply Forall_impl; [|exact HK].
    intros k [Hk _]. exact Hk. }
  cbn [state_add state_scale state_lincomb velocity Vec3_add Vec3_scale vy].
  rewrite Hw, Hy. ring.
Qed.

Lemma across_rate_ok (s d : QuadrotorState) :
  vy (velocity s) = v0 ->
  D s = Some d ->
  vy (velocity d) = 0 /\ vy (position d) = v0.
Proof.
  intros Hs Hd. destruct (D_across _ _ Hd) as [H1 H2].
  split; [exact H1|]. rewrite H2. exact Hs.
Qed.

Lemma position_y_stage (y : QuadrotorState) (h : R)
    (K : list QuadrotorState) (a : list R) :
  vy (position (state_add y (state_scale h (state_lincomb K a))))
  = vy (position y) + h * weighted K a (fun x => vy (position x)).
Proof. reflexivity. Qed.

Lemma rk_step_state_across (h : R) (y f y1 f1 : QuadrotorState) :
  vy (velocity y) = v0 ->
  vy (velocity f) = 0 /\ vy (position f) = v0 ->
  rk_step_state D y f h = Some (y1, f1) ->
  vy (velocity y1) = v0
  /\ (vy (velocity f1) = 0 /\ vy (position f1) = v0)
  /\ vy (position y1) = vy (position y) + h * v0.
Proof.
  intros Hy Hf Hstep.
  pose proof (rk_step_state_invariant D
                (fun s => vy (velocity s) = v0)
                (fun d => vy (velocity d) = 0 /\ vy (position d) = v0)
                across_stage_ok across_rate_ok
                y f y1 f1 h Hy Hf Hstep)
    as (Hy1 & Hf1 & K & HK & Hlen & Heq).
  split; [exact Hy1|]. split; [exact Hf1|].
  rewrite Heq, position_y_stage.
  rewrite (weighted_RK45_B (fun x => vy (position x)) v0 K Hlen); [reflexivity|].
  eapply Forall_impl; [|exact HK]. intros k [_ Hk]. exact Hk.
Qed.

Lemma total_cons (h : R) (hs : list R) : total (h :: hs) = h + total hs.
Proof. reflexivity. Qed.

Lemma rk_integrate_state_across (hs : list R) :
  forall y f y',
    vy (velocity y) = v0 ->
    vy (velocity f) = 0 /\ vy (position f) = v0 ->
    rk_integrate_state D y f hs = Some y' ->
    vy (position y') = vy (position y) + total hs * v0.
Proof.
  induction hs as [|h hs IH]; intros y f y' Hy Hf Hrun.
  - injection Hrun as <-. cbn [total fold_right]. ring.
  - cbn [rk_integrate_state] in Hrun.
    destruct (rk_step_state D y f h) as [[y1 f1]|] eqn:Hstep;
      [|discriminate Hrun].
    destruct (rk_step_state_across _ _ _ _ _ Hy Hf Hstep)
      as (Hy1 & Hf1 & Hpos).
    rewrite (IH _ _ _ Hy1 Hf1 Hrun), Hpos, total_cons. ring.
Qed.

End AcrossPlane.

(** Across the plane the motion is uniform: a step moves [position.y] by
    [dt * velocity.y], whatever the command and the attitude, so a vehicle
    with no velocity across the plane stays in it. *)
Theorem step_across_plane (self : Dynamics) (t r1 r2 : R) (rest : list R) :
  reaches_bound rk45_steps ->
  0 <= dt self ->
  exists s',
    step self t (mkQuadrotorCommands (r1 :: r2 :: rest))
    = Some (s', mkDynamics s' (dt self))
    /\ vy (position s')
       = vy (position (state self)) + dt self * vy (velocity (state self)).
Proof.
  intros Hbound Hdt.
  destruct (step_total self t r1 r2 rest) as [s' Hs'].
  exists s'. split; [exact Hs'|].
  rewrite step_on_states in Hs'. cbv zeta in Hs'.
  destruct (state_derivative (state self) _ _) as [f0|] eqn:Hf0;
    [|discriminate Hs'].
  cbn [bind] in Hs'.
  destruct (rk_integrate_state _ (state self) f0 _) as [y'|] eqn:Hrun;
    [|discriminate Hs'].
  cbn [bind] in Hs'. injection Hs' as <-.
  rewrite (rk_integrate_state_across _ _
             (fun s d Hd => state_derivative_across s d _ _ Hd)
             _ _ _ _ eq_refl (state_derivative_across _ _ _ _ Hf0) Hrun).
  match goal with
  | |- context [rk45_steps ?f ?d ?y] =>
      destruct (Hbound f d y Hdt) as [_ ->]
  end.
  reflexivity.
Qed.

(** ** Symmetric thrust *)

Lemma state_derivative_level (q : Rot3) (u1 : R) (s : QuadrotorState) :
  angular_velocity s = zeros3 ->
  orientation s = q ->
  state_derivative s u1 0
  = Some (mkQuadrotorState (velocity s) (thrust_acceleration q u1)
            (mkRot3 0 0 0 0) zeros3).
Proof.
  intros Hw <-.
  rewrite state_derivative_value, dRot3_value, Hw. cbn [bind vx vy vz zeros3].
  unfold thrust_acceleration, zeros3.
  f_equal. f_equal; f_equal; unfold Rdiv; ring.
Qed.

Ltac ballistic_compute :=
  cbv [state_add state_scale state_lincomb weighted Vec3_add Vec3_scale
       Rot3_add Rot3_scale dot map firstn length app ballistic zeros3
       RK45_B position velocity orientation angular_velocity
       vx vy vz qx qy qz qw].

Section Ballistic.

Variable D : QuadrotorState -> option QuadrotorState.
Variable q : Rot3.
Variable a : Vec3.

Hypothesis D_level :
  forall s, angular_velocity s = zeros3 -> orientation s = q ->
    D s = Some (mkQuadrotorState (velocity s) a (mkRot3 0 0 0 0) zeros3).

Lemma rk_step_state_ballistic (y f : QuadrotorState) (h : R) :
  angular_velocity y = zeros3 ->
  orientation y = q ->
  D y = Some f ->
  exists f_new,
    rk_step_state D y f h = Some (ballistic y a h, f_new)
    /\ D (ballistic y a h) = Some f_new.
Proof.
  intros Hw Hq Hf.
  rewrite (D_level y Hw Hq) in Hf. injection Hf as <-.
  destruct y as [[px py pz] [ux uy uz] [q0 q1 q2 q3] w].
  cbn [angular_velocity orientation] in Hw, Hq. subst w.
  eexists. split; [|apply D_level; [reflexivity|exact Hq]].
  unfold rk_step_state. cbn [combine tl RK45_A RK45_C].
  do 5 (cbn [rk_stages_state];
        rewrite D_level
          by (ballistic_compute; try rewrite <- Hq; f_equal; ring);
        cbn [bind app]).
  cbn [rk_stages_state bind].
  rewrite D_level by (ballistic_compute; try rewrite <- Hq; f_equal; ring).
  cbn [bind]. f_equal.
  ballistic_compute.
  f_equal; f_equal; f_equal; field.
Qed.

Lemma ballistic_compose (y : QuadrotorState) (t1 t2 : R) :
  ballistic (ballistic y a t1) a t2 = ballistic y a (t1 + t2).
Proof.
  unfold ballistic. cbn [position velocity orientation angular_velocity vx vy vz].
  f_equal; f_equal; field.
Qed.

Lemma ballistic_zero (y : QuadrotorState) : ballistic y a 0 = y.
Proof.
  destruct y as [[px py pz] [ux uy uz] q' w].
  unfold ballistic. cbn [position velocity orientation angular_velocity vx vy vz].
  f_equal; f_equal; field.
Qed.

Lemma rk_integrate_state_ballistic (hs : list R) :
  forall y f,
    angular_velocity y = zeros3 ->
    orientation y = q ->
    D y = Some f ->
    rk_integrate_state D y f hs = Some (ballistic y a (total hs)).
Proof.
  induction hs as [|h hs IH]; intros y f Hw Hq Hf.
  - cbn [rk_integrate_state total fold_right]. rewrite ballistic_zero. reflexivity.
  - cbn [rk_integrate_state].
    destruct (rk_step_state_ballistic y f h Hw Hq Hf) as (f_new & -> & Hnew).
    rewrite (IH (ballistic y a h) f_new Hw Hq Hnew), ballistic_compose, total_cons.
    reflexivity.
Qed.

End Ballistic.

Lemma step_level_flight (self : Dynamics) (t r1 r2 : R) (rest : list R) :
  reaches_bound rk45_steps ->
  0 <= dt self ->
  angular_velocity (state self) = zeros3 ->
  r1 ^ 2 = r2 ^ 2 ->
  let a := thrust_acceleration (orientation (state self))
             (k_thrust p * r1 ^ 2 + k_thrust p * r2 ^ 2) in
  step self t (mkQuadrotorCommands (r1 :: r2 :: rest))
  = Some (ballistic (state self) a (dt self),
          mkDynamics (ballistic (state self) a (dt self)) (dt self)).
Proof.
  intros Hbound Hdt Hw Hsq a.
  rewrite step_on_states. cbv zeta.
  replace ((k_thrust p * r1 ^ 2 - k_thrust p * r2 ^ 2) * arm_length p)
    with 0 by (rewrite Hsq; ring).
  rewrite (state_derivative_level _ _ _ Hw eq_refl). cbn [bind].
  rewrite (rk_integrate_state_ballistic _ (orientation (state self)) a
             (fun s => state_derivative_level _ _ s) _ _ _ Hw eq_refl
             (state_derivative_level _ _ _ Hw eq_refl)).
  cbn [bind].
  match goal with
  | |- context [rk45_steps ?f ?d ?y] =>
      destruct (Hbound f d y Hdt) as [_ ->]
  end.
  reflexivity.
Qed.

(** Under equal thrust on the two rotors and without angular velocity, a
    step keeps the attitude and moves the vehicle under the constant
    acceleration of the thrust along the held attitude and of gravity:
    position and velocity are those of the closed-form motion over [dt]. *)
Theorem step_symmetric_thrust (self : Dynamics) (t r1 r2 : R) (rest : list R) :
  reaches_bound rk45_steps ->
  0 <= dt self ->
  angular_velocity (state self) = zeros3 ->
  r1 ^ 2 = r2 ^ 2 ->
  let a := thrust_acceleration (orientation (state self))
             (k_thrust p * r1 ^ 2 + k_thrust p * r2 ^ 2) in
  step self t (mkQuadrotorCommands (r1 :: r2 :: rest))
  = Some (ballistic (state self) a (dt self),
          mkDynamics (ballistic (state self) a (dt self)) (dt self)).
Proof. exact (step_level_flight self t r1 r2 rest). Qed.

(** Hover: at rest, without angular velocity, at zero pitch and with equal
    thrusts that add up to the weight, a step returns the held state. *)
Theorem hover_equilibrium (self : Dynamics) (t r1 r2 : R) (rest : list R) :
  reaches_bound rk45_steps ->
  0 <= dt self ->
  velocity (state self) = zeros3 ->
  angular_velocity (state self) = zeros3 ->
  pitch_of (orientation (state self)) = 0 ->
  mass p <> 0 ->
  r1 ^ 2 = r2 ^ 2 ->
  k_thrust p * r1 ^ 2 + k_thrust p * r2 ^ 2 = mass p * g p ->
  step self t (mkQuadrotorCommands (r1 :: r2 :: rest)) = Some (state self, self).
Proof.
  intros Hbound Hdt Hv Hw Hpitch Hm Hsq Hweight.
  rewrite (step_level_flight self t r1 r2 rest Hbound Hdt Hw Hsq).
  cbv zeta. rewrite Hweight.
  assert (Hrest : ballistic (state self)
                    (thrust_acceleration (orientation (state self))
                       (mass p * g p)) (dt self) = state self).
  { unfold thrust_acceleration. rewrite Hpitch, sin_0, cos_0.
    destruct self as [[[px py pz] v q w] d].
    cbn [state velocity] in Hv. subst v.
    unfold ballistic, zeros3.
    cbn [state dt position velocity orientation angular_velocity vx vy vz].
    f_equal; f_equal; field; exact Hm. }
  rewrite Hrest. destruct self; reflexivity.
Qed.

End PlanarQuadrotorDynamics.

(** * The properties at the runs of the notebook *)

Lemma single_step_reaches_bound : reaches_bound single_step.
Proof.
  intros fun_ d y0 Hd. split.
  - constructor; [exact Hd | constructor].
  - cbv [total single_step fold_right]. apply Rplus_0_r.
Defined.

Lemma free_fall_trajectory_witness :
  reaches_bound single_step
  /\ 0 <= 0.01
  /\ exists self',
       step_n Params_default level_yaw_pitch_roll single_step 100
         (mkDynamics initial_state 0.01) 0 EmptyController_step = Some self'
       /\ vz (velocity (state self')) = - g Params_default * (INR 100 * 0.01)
       /\ vz (position (state self'))
          = 0 - 1 / 2 * g Params_default * (INR 100 * 0.01) ^ 2
       /\ orientation (state self') = Rot3_identity
       /\ angular_velocity (state self') = zeros3.
Proof.
  split; [exact single_step_reaches_bound|].
  split; [lra|].
  apply (free_fall_trajectory Params_default level_yaw_pitch_roll single_step
           (mkDynamics initial_state 0.01) 100 0 [0; 0]).
  - exact single_step_reaches_bound.
  - cbn [dt]. lra.
  - reflexivity.
  - reflexivity.
Defined.

Lemma zero_duration_step_witness :
  step Params_default level_yaw_pitch_roll single_step
    (mkDynamics initial_state 0) 0 HoverController_step
  = Some (initial_state, mkDynamics initial_state 0).
Proof.
  apply (zero_duration_step Params_default level_yaw_pitch_roll single_step
           (mkDynamics initial_state 0) 0 598 598 [0; 0]).
  - exact single_step_reaches_bound.
  - reflexivity.
Defined.




(** * The further properties at concrete inputs *)

Lemma k_thrust_unit : k_thrust Params_unit = 1.
Proof.
  unfold k_thrust, rotor_model, Params_unit.
  cbn [rho static_thrust_coefficient rotor_diameter].
  field. exact PI_neq0.
Defined.

Lemma dRot3_zero_rate_witness : mkVec3 0 0 0 = zeros3.
Proof.
  apply (dRot3_zero_rate Rot3_identity (mkVec3 0 0 0)).
  - cbn. lra.
  - rewrite dRot3_value. cbn [Rot3_identity qx qy qz qw vx vy vz].
    f_equal. f_equal; field.
Defined.

Lemma rotor_model_positive_witness :
  0 < rotor_model Params_default 0.14553.
Proof.
  apply rotor_model_positive; cbn [rho rotor_diameter Params_default]; lra.
Defined.

Lemma pitch_rate_growth_witness :
  exists self',
    step_n Params_default level_yaw_pitch_roll single_step 100
      (mkDynamics initial_state 0.01) 0 ImbalancedController_step = Some self'
    /\ dt self' = 0.01
    /\ vy (angular_velocity (state self'))
       = 0 + INR 100 * 0.01
             * ((k_thrust Params_default * 600 ^ 2
                 - k_thrust Params_default * 500 ^ 2)
                * arm_length Params_default / inertia Params_default).
Proof.
  apply (pitch_rate_growth Params_default level_yaw_pitch_roll single_step
           100 600 500 [0; 0] single_step_reaches_bound
           (mkDynamics initial_state 0.01) 0).
  cbn [dt]. lra.
Defined.

Lemma step_across_plane_witness :
  exists s',
    step Params_default level_yaw_pitch_roll single_step
      (mkDynamics initial_state 0.01) 0 ImbalancedController_step
    = Some (s', mkDynamics s' 0.01)
    /\ vy (position s') = 0 + 0.01 * 0.
Proof.
  apply (step_across_plane Params_default level_yaw_pitch_roll single_step
           (mkDynamics initial_state 0.01) 0 600 500 [0; 0]).
  - exact single_step_reaches_bound.
  - cbn [dt]. lra.
Defined.

Lemma step_symmetric_thrust_witness :
  step Params_default level_yaw_pitch_roll single_step
    (mkDynamics initial_state 0.01) 0 HoverController_step
  = Some (ballistic initial_state
            (thrust_acceleration Params_default level_yaw_pitch_roll
               Rot3_identity
               (k_thrust Params_default * 598 ^ 2
                + k_thrust Params_default * 598 ^ 2)) 0.01,
          mkDynamics
            (ballistic initial_state
               (thrust_acceleration Params_default level_yaw_pitch_roll
                  Rot3_identity
                  (k_thrust Params_default * 598 ^ 2
                   + k_thrust Params_default * 598 ^ 2)) 0.01) 0.01).
Proof.
  apply (step_symmetric_thrust Params_default level_yaw_pitch_roll single_step
           (mkDynamics initial_state 0.01) 0 598 598 [0; 0]).
  - exact single_step_reaches_bound.
  - cbn [dt]. lra.
  - reflexivity.
  - reflexivity.
Defined.

Lemma hover_equilibrium_witness :
  step Params_unit level_yaw_pitch_roll single_step
    (mkDynamics initial_state 0.01) 0 (mkQuadrotorCommands [1; 1; 0; 0])
  = Some (initial_state, mkDynamics initial_state 0.01).
Proof.
  apply (hover_equilibrium Params_unit level_yaw_pitch_roll single_step
           (mkDynamics initial_state 0.01) 0 1 1 [0; 0]).
  - exact single_step_reaches_bound.
  - cbn [dt]. lra.
  - reflexivity.
  - reflexivity.
  - reflexivity.
  - cbn [mass Params_unit]. lra.
  - reflexivity.
  - rewrite k_thrust_unit. cbn [mass g Params_unit]. lra.
Defined.

Lemma rotor_thrust_int_nonneg_witness :
  rotor_thrust_model_int Params_unit 32 [-600; 500; 0; 0]%Z
  = map (fun rate => k_thrust Params_unit * IZR rate ^ 2) [-600; 500; 0; 0]%Z
  /\ Forall (fun F => 0 <= F)
       (rotor_thrust_model_int Params_unit 32 [-600; 500; 0; 0]%Z).
Proof.
  apply rotor_thrust_int_nonneg.
  - reflexivity.
  - rewrite k_thrust_unit. lra.
  - repeat constructor.
Defined.

Lemma rotor_thrust_int_wraps_witness :
  rotor_thrust_model_int Params_unit 32 [46341%Z]
  = [k_thrust Params_unit * IZR (46341 * 46341 - 2 ^ 32)]
  /\ k_thrust Params_unit * IZR (46341 * 46341 - 2 ^ 32) < 0.
Proof.
  apply (rotor_thrust_int_wraps Params_unit 32 46341).
  - reflexivity.
  - rewrite k_thrust_unit. lra.
  - split; [discriminate|reflexivity].
Defined.

Lemma generalized_inputs_int_bounds_witness :
  exists u1 u2,
    generalized_inputs_int Params_unit 32 [600; 500; 0; 0]%Z = Some (u1, u2)
    /\ generalized_inputs Params_unit
         (mkQuadrotorCommands (IZR 600 :: IZR 500 :: map IZR [0; 0]%Z))
       = Some (u1, u2)
    /\ 0 <= u1
    /\ Rabs u2 <= u1 * arm_length Params_unit.
Proof.
  apply (generalized_inputs_int_bounds Params_unit 32 600 500 [0; 0]%Z).
  - reflexivity.
  - reflexivity.
  - reflexivity.
  - rewrite k_thrust_unit. lra.
  - cbn [arm_length Params_unit]. lra.
Defined.

Lemma net_torque_int_sign_witness :
  exists u1 u2,
    generalized_inputs_int Params_unit 32 [600; 500; 0; 0]%Z = Some (u1, u2)
    /\ (0 < u2 <-> (Z.abs 500 < Z.abs 600)%Z)
    /\ (u2 = 0 <-> Z.abs 600 = Z.abs 500).
Proof.
  apply (net_torque_int_sign Params_unit 32 600 500 [0; 0]%Z).
  - reflexivity.
  - reflexivity.
  - reflexivity.
  - rewrite k_thrust_unit. lra.
  - cbn [arm_length Params_unit]. lra.
Defined.
